(** * The counting engine of Main.py ([CountingAI])

    A shallow embedding of the class [CountingAI]: its four fields, its
    five methods and the Python built-ins they call ([range], [str] on
    integers, [str.lower], [str.replace], slicing, [re.findall] on the
    pattern the engine uses, [collections.Counter]); and of the input
    handling of the window [CountingGUI] that drives it.

    Python integers are unbounded, so they are [Z].  The engine is first
    modelled on a machine that can hold every list; [basic_count] is
    then modelled again with the two failures of a list too long to
    build.  A [str] of the engine is a [string] of 8-bit characters, the
    code points U+0000 to U+00FF, with Python's tables for them; the
    [words] entry of [count_occurrences] is modelled again on texts of
    arbitrary code points (module [Unicode]).  A [dict] is a [gmap]: the
    results are compared as mappings, never by insertion order.  A method is a computation [M A]: it receives the
    instance, returns the instance it leaves behind, and either a value
    or the exception it raised. *)

From stdpp Require Import base numbers list list_numbers strings pretty gmap.
From Stdlib Require Import ZArith Ascii String.

#[local] Open Scope Z_scope.

(** ** Exceptions and the method monad *)

Inductive exn : Type :=
  | ValueError (msg : string)
  | OverflowError (msg : string)
  | MemoryError.

(** [str(e)] for an exception raised with these arguments. *)
Definition exn_str (e : exn) : string :=
  match e with
  | ValueError msg => msg
  | OverflowError msg => msg
  | MemoryError => ""
  end.

(** The dictionary with the keys ["characters"] and ["words"] that
    [count_occurrences] builds. *)
Record occurrences : Type := mkOccurrences {
  characters : gmap ascii Z;
  words : gmap string Z
}.

(** The value stored in [last_result] and in the third component of a
    history entry: the list of [basic_count], the two-key dictionary of
    [count_occurrences], or the dictionary of [custom_count]. *)
Inductive py_result : Type :=
  | RList (l : list Z)
  | ROccurrences (d : occurrences)
  | RCounts (counts : gmap string Z).

Record CountingAI : Type := mkCountingAI {
  history : list (string * string * py_result);
  mode : string;
  custom_items : list string;
  last_result : option py_result
}.

(** [CountingAI.__init__] *)
Definition init : CountingAI :=
  {| history := []; mode := "basic"; custom_items := []; last_result := None |}.

Module Method.

Definition M (A : Type) : Type := CountingAI → (exn + A) * CountingAI.

Definition ret {A} (a : A) : M A := λ self, (inr a, self).

Definition raise {A} (e : exn) : M A := λ self, (inl e, self).

Definition bind {A B} (m : M A) (k : A → M B) : M B := λ self,
  match m self with
  | (inl e, self') => (inl e, self')
  | (inr a, self') => k a self'
  end.

(** [self.last_result = v] *)
Definition set_last_result (v : option py_result) : M unit := λ self,
  (inr (), {| history := history self; mode := mode self;
              custom_items := custom_items self; last_result := v |}).

(** [self.history = h] *)
Definition set_history (h : list (string * string * py_result)) : M unit := λ self,
  (inr (), {| history := h; mode := mode self;
              custom_items := custom_items self; last_result := last_result self |}).

(** [self.history.append(entry)] *)
Definition history_append (entry : string * string * py_result) : M unit := λ self,
  set_history (history self ++ [entry]) self.

(** [self.history] read *)
Definition read_history : M (list (string * string * py_result)) := λ self,
  (inr (history self), self).

End Method.

Import Method.

#[global] Instance M_ret : MRet M := @ret.
#[global] Instance M_bind : MBind M := λ A B k m, bind m k.

(** ** Built-ins on integers *)

(** Number of elements of [range(lo, hi, step)], as CPython computes it. *)
Definition range_length (lo hi step : Z) : Z :=
  if 0 <? step then
    if lo <? hi then (hi - lo - 1) / step + 1 else 0
  else if step <? 0 then
    if hi <? lo then (lo - hi - 1) / (- step) + 1 else 0
  else 0.

(** [list(range(start, stop, step))]; [range] raises on a zero step. *)
Definition range (start stop step : Z) : M (list Z) :=
  if step =? 0 then raise (ValueError "range() arg 3 must not be zero")
  else ret ((λ i, start + i * step) <$> seqZ 0 (range_length start stop step)).

(** [str(n)] for an integer, as used by the f-strings. *)
Definition str (n : Z) : string := pretty n.

(** ** [CountingAI.basic_count] *)

Definition basic_count (start end_ step : Z) : M (list Z) :=
  if step =? 0 then raise (ValueError "Step cannot be zero")
  else if start =? end_ then ret [start]
  else if (start <? end_) && (step <? 0) || (start >? end_) && (step >? 0) then ret []
  else
    result ← range start (end_ + (if step >? 0 then 1 else -1)) step;
    set_last_result (Some (RList result));;
    history_append ("Basic Count",
                    "from " +:+ str start +:+ " to " +:+ str end_ +:+ " by " +:+ str step,
                    RList result);;
    ret result.

(** ** [basic_count] on a machine

    [list(range(...))] first asks the range for its length, which raises
    [OverflowError] when the length is above [sys.maxsize]; then it
    allocates the list, which raises [MemoryError] when the machine
    cannot hold it.  [capacity] is the length of the longest list the
    machine can hold.  The engine above is the engine on a machine that
    can hold every list. *)

(** [sys.maxsize] of a 64-bit interpreter. *)
Definition sys_maxsize : Z := 2 ^ 63 - 1.

Section machine.

Variable capacity : Z.

Definition list_of_range (start stop step : Z) : M (list Z) :=
  if step =? 0 then raise (ValueError "range() arg 3 must not be zero")
  else
    let n := range_length start stop step in
    if sys_maxsize <? n then
      raise (OverflowError "Python int too large to convert to C ssize_t")
    else if capacity <? n then raise MemoryError
    else ret ((λ i, start + i * step) <$> seqZ 0 n).

Definition basic_count_on_machine (start end_ step : Z) : M (list Z) :=
  if step =? 0 then raise (ValueError "Step cannot be zero")
  else if start =? end_ then ret [start]
  else if (start <? end_) && (step <? 0) || (start >? end_) && (step >? 0) then ret []
  else
    result ← list_of_range start (end_ + (if step >? 0 then 1 else -1)) step;
    set_last_result (Some (RList result));;
    history_append ("Basic Count",
                    "from " +:+ str start +:+ " to " +:+ str end_ +:+ " by " +:+ str step,
                    RList result);;
    ret result.

End machine.

(** ** Built-ins on strings

    The tables of Python's Unicode database for the code points U+0000
    to U+00FF, which the 8-bit characters stand for. *)

(** [c.isupper()]: A to Z, and the capital letters U+00C0 to U+00DE
    without the multiplication sign U+00D7. *)
Definition is_upper (c : ascii) : bool :=
  let n := N_of_ascii c in
  ((65 <=? n) && (n <=? 90) || (192 <=? n) && (n <=? 214)
   || (216 <=? n) && (n <=? 222))%N.

(** [c.isalnum()]: the digits and letters of ASCII; the ordinal
    indicators, the micro sign, the superscript digits and the vulgar
    fractions; the letters U+00C0 to U+00FF without the multiplication
    and division signs. *)
Definition is_alnum (c : ascii) : bool :=
  let n := N_of_ascii c in
  ((48 <=? n) && (n <=? 57) || (65 <=? n) && (n <=? 90)
   || (97 <=? n) && (n <=? 122)
   || (n =? 170) || (178 <=? n) && (n <=? 179) || (n =? 181)
   || (185 <=? n) && (n <=? 186) || (188 <=? n) && (n <=? 190)
   || (192 <=? n) && (n <=? 214) || (216 <=? n) && (n <=? 246)
   || (248 <=? n) && (n <=? 255))%N.

(** The class [\w] of [re] on a [str]: [isalnum()] or the underscore. *)
Definition is_word_char (c : ascii) : bool :=
  is_alnum c || (N_of_ascii c =? 95)%N.

(** The lowercase of one character: 32 above each capital letter. *)
Definition lower_char (c : ascii) : ascii :=
  if is_upper c then ascii_of_N (N_of_ascii c + 32) else c.

(** [s.lower()]: on these code points the lowercase of a string is that
    of its characters, one by one. *)
Fixpoint lower (s : string) : string :=
  match s with
  | EmptyString => EmptyString
  | String c s' => String (lower_char c) (lower s')
  end.

(** [s.replace(c, '')] for a one-character [c]: every occurrence is dropped. *)
Fixpoint replace_with_empty (c : ascii) (s : string) : string :=
  match s with
  | EmptyString => EmptyString
  | String d s' =>
      if decide (d = c) then replace_with_empty c s'
      else String d (replace_with_empty c s')
  end.

(** [s[:n]] *)
Definition prefix (n : nat) (s : string) : string := substring 0 n s.

(** [re.findall(r'\b\w+\b', s)].  A match starts at a word character
    whose left neighbour is not one ([\b]), [\w+] is greedy, and the match
    ends where the next character is not a word character ([\b]); the
    search resumes after the match.  So the matches are the maximal runs
    of word characters, from left to right.  [cur] is the run being read. *)
Fixpoint findall_words_from (cur : string) (s : string) : list string :=
  match s with
  | EmptyString => if decide (cur = "") then [] else [cur]
  | String c s' =>
      if is_word_char c then findall_words_from (cur +:+ String c "") s'
      else (if decide (cur = "") then [] else [cur]) ++ findall_words_from "" s'
  end.

Definition findall_words (s : string) : list string := findall_words_from "" s.

(** [collections.Counter(items)]: each element adds one to its entry,
    a missing entry counting as zero. *)
Definition Counter `{Countable K} (items : list K) : gmap K Z :=
  foldl (λ count x, <[x := default 0 (count !! x) + 1]> count) ∅ items.

(** The number of exact-match occurrences of [x] in [items]: what a
    frequency tally is meant to produce for the key [x]. *)
Definition tally `{EqDecision K} (x : K) (items : list K) : nat :=
  count_occ (decide_rel (=)) items x.

(** ** [CountingAI.count_occurrences] *)

Definition count_occurrences (text : string) (case_sensitive : bool) : M occurrences :=
  let text := if negb case_sensitive then lower text else text in
  let words := findall_words text in
  let all_chars := list_ascii_of_string (replace_with_empty " " text) in
  let char_count := Counter all_chars in
  let word_count := Counter words in
  let result := {| characters := char_count; words := word_count |} in
  set_last_result (Some (ROccurrences result));;
  history_append ("Count Occurrences",
                  "Text: '" +:+ prefix 20 text +:+ "...'",
                  ROccurrences result);;
  ret result.

(** ** [CountingAI.custom_count] *)

Definition custom_count (items : list string) : M (gmap string Z) :=
  let count := Counter items in
  let result := count in
  set_last_result (Some (RCounts result));;
  history_append ("Custom Count",
                  str (Z.of_nat (List.length items)) +:+ " items",
                  RCounts result);;
  ret result.

(** ** [CountingAI.get_history] and [CountingAI.clear_history] *)

Definition get_history : M (list (string * string * py_result)) :=
  read_history.

Definition clear_history : M unit :=
  set_history [];;
  set_last_result None.

(** ** Sequences of calls

    What a client of the engine can do with an instance: call one of the
    five methods.  A call that raises leaves the instance as the
    exception found it, and the client goes on. *)
Inductive call : Type :=
  | CallBasicCount (start end_ step : Z)
  | CallCountOccurrences (text : string) (case_sensitive : bool)
  | CallCustomCount (items : list string)
  | CallGetHistory
  | CallClearHistory.

Definition run_call (self : CountingAI) (c : call) : CountingAI :=
  match c with
  | CallBasicCount start end_ step => snd (basic_count start end_ step self)
  | CallCountOccurrences text case_sensitive => snd (count_occurrences text case_sensitive self)
  | CallCustomCount items => snd (custom_count items self)
  | CallGetHistory => snd (get_history self)
  | CallClearHistory => snd (clear_history self)
  end.

Definition run_calls (self : CountingAI) (cs : list call) : CountingAI :=
  foldl run_call self cs.

(** Whether a call appends to the history: the two tallies always do,
    [basic_count] only on its counting path. *)
Definition logs (c : call) : bool :=
  match c with
  | CallBasicCount start end_ step =>
      (start <? end_) && (0 <? step) || (end_ <? start) && (step <? 0)
  | CallCountOccurrences _ _ => true
  | CallCustomCount _ => true
  | CallGetHistory => false
  | CallClearHistory => false
  end.

Definition is_clear (c : call) : bool :=
  match c with CallClearHistory => true | _ => false end.

(** [sum(d.values())]: the sum of the counts of a dictionary. *)
Definition total `{Countable K} (d : gmap K Z) : Z :=
  map_fold (λ _ v acc, v + acc) 0 d.

(** * The input handling of [CountingGUI]

    The part of the window that decides what reaches the engine: the
    entries and the mode selector that [perform_count] reads, the message
    boxes it shows, and the history list box that [update_history]
    fills.  The text of the result pane is not part of the model. *)

(** ** Built-ins on strings used by the window *)

(** The whitespace of [str.strip()]: tab to carriage return, the
    separators 28 to 31, the space, the next-line control U+0085 and the
    no-break space U+00A0. *)
Definition is_space (c : ascii) : bool :=
  let n := N_of_ascii c in
  ((9 <=? n) && (n <=? 13) || (28 <=? n) && (n <=? 32)
   || (n =? 133) || (n =? 160))%N.

Fixpoint lstrip (s : string) : string :=
  match s with
  | EmptyString => EmptyString
  | String c s' => if is_space c then lstrip s' else s
  end.

Fixpoint rstrip (s : string) : string :=
  match s with
  | EmptyString => EmptyString
  | String c s' =>
      match rstrip s' with
      | EmptyString => if is_space c then EmptyString else String c EmptyString
      | r => String c r
      end
  end.

(** [s.strip()] *)
Definition strip (s : string) : string := rstrip (lstrip s).

(** A string that does not begin with whitespace. *)
Definition starts_clean (s : string) : Prop :=
  match s with
  | EmptyString => True
  | String c _ => is_space c = false
  end.

(** [s.split(sep)] for a one-character [sep]: the pieces between the
    separators, empty pieces included; [cur] is the piece being read. *)
Fixpoint split_from (sep : ascii) (cur : string) (s : string) : list string :=
  match s with
  | EmptyString => [cur]
  | String c s' =>
      if decide (c = sep) then cur :: split_from sep "" s'
      else split_from sep (cur +:+ String c "") s'
  end.

Definition split (sep : ascii) (s : string) : list string := split_from sep "" s.

(** [sep.join(items)], to state what [split] undoes. *)
Fixpoint join (sep : ascii) (items : list string) : string :=
  match items with
  | [] => ""
  | [x] => x
  | x :: rest => x +:+ String sep (join sep rest)
  end.

(** [[item.strip() for item in items_str.split(",") if item.strip()]] *)
Definition entry_items (items_str : string) : list string :=
  strip <$> filter (λ item, strip item ≠ "") (split "," items_str).

(** ** [CountingGUI.update_history] *)

(** The lines put in the list box: [f"{i+1}. {mode} - {description}"]
    for the entries of [get_history()], numbered by [enumerate]. *)
Definition update_history (self : CountingAI) : list string :=
  imap (λ i '(mode, description, _),
          str (Z.of_nat i + 1) +:+ ". " +:+ mode +:+ " - " +:+ description)
       (history self).

(** ** The window *)

Inductive dialog : Type :=
  | showwarning (title message : string)
  | showerror (title message : string).

Record CountingGUI : Type := mkCountingGUI {
  ai : CountingAI;
  mode_var : string;
  start_entry : string;
  end_entry : string;
  step_entry : string;
  text_entry : string;
  case_var : bool;
  custom_entry : string;
  history_listbox : list string;
  (** the message boxes shown so far, oldest first *)
  dialogs : list dialog
}.

(** [CountingGUI.__init__] with [setup_ui]: a fresh engine, the default
    entries, and [update_history] on the empty history. *)
Definition gui_init : CountingGUI :=
  {| ai := init; mode_var := "basic";
     start_entry := "1"; end_entry := "10"; step_entry := "1";
     text_entry := ""; case_var := false; custom_entry := "";
     history_listbox := update_history init; dialogs := [] |}.

(** How the body of the [try] in [perform_count] ends when it does not
    raise: at a [return] after a warning, or at its last line. *)
Inductive outcome : Type :=
  | Returned (d : dialog)
  | Completed.

Section window.

(** [int(s)] on a string is left open: any function from strings to an
    integer or a [ValueError]. *)
Variable int : string → exn + Z.

Definition int_of (s : string) : M Z := λ self, (int s, self).

(** The body of the [try] of [perform_count], on the engine. *)
Definition perform_count_body (g : CountingGUI) : M outcome :=
  let mode := mode_var g in
  if decide (mode = "basic") then
    start ← int_of (start_entry g);
    end_ ← int_of (end_entry g);
    step ← int_of (step_entry g);
    basic_count start end_ step;;
    ret Completed
  else if decide (mode = "occurrences") then
    let text := text_entry g in
    if decide (text = "") then
      ret (Returned (showwarning "Input Error" "Please enter text to analyze."))
    else
      let case_sensitive := case_var g in
      count_occurrences text case_sensitive;;
      ret Completed
  else if decide (mode = "custom") then
    let items_str := custom_entry g in
    if decide (items_str = "") then
      ret (Returned (showwarning "Input Error" "Please enter items to count."))
    else
      let items := entry_items items_str in
      if decide (items = []) then
        ret (Returned (showwarning "Input Error"
                         "Please enter valid items separated by commas."))
      else
        custom_count items;;
        ret Completed
  else ret Completed.

Definition with_engine (g : CountingGUI) (self : CountingAI)
    (listbox : list string) (shown : list dialog) : CountingGUI :=
  {| ai := self; mode_var := mode_var g;
     start_entry := start_entry g; end_entry := end_entry g;
     step_entry := step_entry g; text_entry := text_entry g;
     case_var := case_var g; custom_entry := custom_entry g;
     history_listbox := listbox; dialogs := shown |}.

(** [CountingGUI.perform_count]: the body, then [update_history] if the
    body reached its end, or the error box of one of the two [except]
    clauses. *)
Definition perform_count (g : CountingGUI) : CountingGUI :=
  match perform_count_body g (ai g) with
  | (inr Completed, self) =>
      with_engine g self (update_history self) (dialogs g)
  | (inr (Returned d), self) =>
      with_engine g self (history_listbox g) (dialogs g ++ [d])
  | (inl (ValueError msg), self) =>
      with_engine g self (history_listbox g)
        (dialogs g ++ [showerror "Input Error" ("Invalid input: " +:+ msg)])
  | (inl e, self) =>
      with_engine g self (history_listbox g)
        (dialogs g ++
         [showerror "Error" ("An unexpected error occurred: " +:+ exn_str e)])
  end.

(** [CountingGUI.clear_history] *)
Definition gui_clear_history (g : CountingGUI) : CountingGUI :=
  let self := snd (clear_history (ai g)) in
  with_engine g self (update_history self) (dialogs g).

(** What the user does: fill in the widgets, press Count, press Clear
    History. *)
Inductive event : Type :=
  | UserInput (mode start end_ step text : string) (case_sensitive : bool)
              (custom : string)
  | PressCount
  | PressClear.

Definition gui_step (g : CountingGUI) (e : event) : CountingGUI :=
  match e with
  | UserInput mode start end_ step text case_sensitive custom =>
      {| ai := ai g; mode_var := mode;
         start_entry := start; end_entry := end_; step_entry := step;
         text_entry := text; case_var := case_sensitive; custom_entry := custom;
         history_listbox := history_listbox g; dialogs := dialogs g |}
  | PressCount => perform_count g
  | PressClear => gui_clear_history g
  end.

Definition gui_run (g : CountingGUI) (es : list event) : CountingGUI :=
  foldl gui_step g es.

End window.

(** * The [words] entry on texts of arbitrary code points

    A text is here a list of code points, and this module models again
    the lines of [count_occurrences] that compute [result["words"]].
    Python's Unicode tables are fixed for the code points below 256 (the
    tables above) and for the few code points named below; every other
    entry is left open, as a parameter. *)

Module Unicode.

(** The code points a [string] of the engine stands for. *)
Definition encode (s : string) : list N :=
  N_of_ascii <$> list_ascii_of_string s.

(** I with dot above, combining dot above; omicron, sigma, final sigma. *)
Definition CAPITAL_I_DOT : N := 0x130.
Definition COMBINING_DOT : N := 0x307.
Definition CAPITAL_OMICRON : N := 0x39F.
Definition CAPITAL_SIGMA : N := 0x3A3.
Definition SMALL_OMICRON : N := 0x3BF.
Definition FINAL_SIGMA : N := 0x3C2.
Definition SMALL_SIGMA : N := 0x3C3.

(** The lowercase of a code point below 256, by the table of the
    engine's characters. *)
Definition lower_latin1 (c : N) : N :=
  N_of_ascii (lower_char (ascii_of_N c)).

Definition named (c : N) : bool :=
  bool_decide (c ∈ [CAPITAL_I_DOT; CAPITAL_OMICRON; CAPITAL_SIGMA;
                    SMALL_OMICRON; FINAL_SIGMA; SMALL_SIGMA]).

(** The entries of the tables that are left open: the full lowercase
    mapping, the class [\w] and the properties Cased and Case_Ignorable
    of the code points that are neither below 256 nor named above. *)
Record tables : Type := mkTables {
  lower_beyond : N → list N;
  word_beyond : N → bool;
  cased_beyond : N → bool;
  ignorable_beyond : N → bool
}.

(** Tables with nothing beyond the fixed entries: every other code point
    is its own lowercase, no word character, neither cased nor
    case-ignorable. *)
Definition bare : tables :=
  {| lower_beyond := λ c, [c]; word_beyond := λ _, false;
     cased_beyond := λ _, false; ignorable_beyond := λ _, false |}.

Section tables.

Variable t : tables.

(** The class [\w]: [isalnum()] or the underscore.  The named letters
    are word characters, the combining dot is not. *)
Definition is_word (c : N) : bool :=
  if (c <? 256)%N then is_word_char (ascii_of_N c)
  else if (c =? COMBINING_DOT)%N then false
  else if named c then true
  else word_beyond t c.

(** The property Case_Ignorable: below 256 the apostrophe, the full
    stop, the colon, the circumflex, the grave accent, the diaeresis,
    the soft hyphen, the macron, the acute accent, the middle dot and the
    cedilla; the combining dot is, the named letters are not. *)
Definition is_ignorable (c : N) : bool :=
  if (c <? 256)%N then
    bool_decide (c ∈ [39; 46; 58; 94; 96; 168; 173; 175; 180; 183; 184]%N)
  else if (c =? COMBINING_DOT)%N then true
  else if named c then false
  else ignorable_beyond t c.

(** The property Cased, which [lower] consults on code points that are
    not case-ignorable only: below 256 the letters that have a case. *)
Definition is_cased (c : N) : bool :=
  if (c <? 256)%N then
    ((65 <=? c) && (c <=? 90) || (97 <=? c) && (c <=? 122)
     || (c =? 170) || (c =? 181) || (c =? 186)
     || (192 <=? c) && (c <=? 214) || (216 <=? c) && (c <=? 246)
     || (248 <=? c) && (c <=? 255))%N
  else if (c =? COMBINING_DOT)%N then false
  else if named c then true
  else cased_beyond t c.

(** The full lowercase mapping of a code point, without regard to its
    position: one code point, or two for the capital I with dot above. *)
Definition lower_full (c : N) : list N :=
  if (c <? 256)%N then [lower_latin1 c]
  else if (c =? CAPITAL_I_DOT)%N then [105; COMBINING_DOT]%N
  else if (c =? CAPITAL_OMICRON)%N then [SMALL_OMICRON]
  else if (c =? CAPITAL_SIGMA)%N then [SMALL_SIGMA]
  else if (c =? COMBINING_DOT)%N || named c then [c]
  else lower_beyond t c.

Fixpoint skip_ignorable (s : list N) : list N :=
  match s with
  | [] => []
  | c :: rest => if is_ignorable c then skip_ignorable rest else s
  end.

(** Whether a capital sigma is in final position: a cased letter before
    it and none after it, case-ignorable code points skipped on both
    sides.  [before] holds the code points before it, nearest first. *)
Definition final_sigma (before after : list N) : bool :=
  match skip_ignorable before with
  | [] => false
  | c :: _ =>
      is_cased c &&
      match skip_ignorable after with
      | [] => true
      | d :: _ => negb (is_cased d)
      end
  end.

(** [s.lower()]: each code point by its full mapping, the capital sigma
    by its position. *)
Fixpoint lower_from (before : list N) (s : list N) : list N :=
  match s with
  | [] => []
  | c :: rest =>
      (if (c =? CAPITAL_SIGMA)%N then
         [if final_sigma before rest then FINAL_SIGMA else SMALL_SIGMA]
       else lower_full c)
      ++ lower_from (c :: before) rest
  end.

Definition lower (s : list N) : list N := lower_from [] s.

(** [re.findall(r'\b\w+\b', s)]: the maximal runs of word characters. *)
Fixpoint findall_words_from (cur : list N) (s : list N) : list (list N) :=
  match s with
  | [] => if decide (cur = []) then [] else [cur]
  | c :: rest =>
      if is_word c then findall_words_from (cur ++ [c]) rest
      else (if decide (cur = []) then [] else [cur]) ++ findall_words_from [] rest
  end.

Definition findall_words (s : list N) : list (list N) := findall_words_from [] s.

(** [result["words"]] of [count_occurrences(text, case_sensitive)]. *)
Definition words_of_text (text : list N) (case_sensitive : bool) : gmap (list N) Z :=
  let text := if negb case_sensitive then lower text else text in
  let words := findall_words text in
  let word_count := Counter words in
  word_count.

End tables.

End Unicode.

(** * Properties *)

Example basic_count_1_10_1 :
  fst (basic_count 1 10 1 init) = inr [1; 2; 3; 4; 5; 6; 7; 8; 9; 10].
Proof. reflexivity. Qed.

Example findall_words_runs :
  findall_words "Hello, wor_ld9! a-b  c" = ["Hello"; "wor_ld9"; "a"; "b"; "c"].
Proof. reflexivity. Qed.

Example basic_count_10_1_m1 :
  basic_count 10 1 (-1) init =
  (inr [10; 9; 8; 7; 6; 5; 4; 3; 2; 1],
   {| history := [("Basic Count", "from 10 to 1 by -1", RList [10; 9; 8; 7; 6; 5; 4; 3; 2; 1])];
      mode := "basic"; custom_items := [];
      last_result := Some (RList [10; 9; 8; 7; 6; 5; 4; 3; 2; 1]) |}).
Proof. vm_compute. reflexivity. Qed.

(** ** The integer range behind [basic_count] *)

Section range_facts.

Lemma range_length_up (start end_ step : Z) :
  0 < step → start < end_ →
  range_length start (end_ + 1) step = (end_ - start) / step + 1.
Proof.
  intros Hstep Hlt. unfold range_length.
  destruct (Z.ltb_spec 0 step); [|lia].
  destruct (Z.ltb_spec start (end_ + 1)); [|lia].
  do 2 f_equal. lia.
Qed.

Lemma range_length_down (start end_ step : Z) :
  step < 0 → end_ < start →
  range_length start (end_ + -1) step = (end_ - start) / step + 1.
Proof.
  intros Hstep Hlt. unfold range_length.
  destruct (Z.ltb_spec 0 step); [lia|].
  destruct (Z.ltb_spec step 0); [|lia].
  destruct (Z.ltb_spec (end_ + -1) start); [|lia].
  f_equal. rewrite <- (Z.div_opp_opp (end_ - start) step) by lia.
  f_equal. lia.
Qed.

(** The last index reached: the quotient is not negative, and the term
    it gives does not pass [end_]. *)
Lemma last_index_bounds (start end_ step : Z) :
  (start < end_ ∧ 0 < step) ∨ (end_ < start ∧ step < 0) →
  let n := (end_ - start) / step in
  0 ≤ n ∧ (0 < step → n * step ≤ end_ - start < n * step + step)
        ∧ (step < 0 → n * step + step < end_ - start ≤ n * step).
Proof.
  intros Hdir n. subst n.
  pose proof (Z.div_mod (end_ - start) step) as Hdm.
  destruct Hdir as [[Hlt Hs]|[Hlt Hs]].
  - pose proof (Z.mod_pos_bound (end_ - start) step Hs).
    split; [apply Z.div_pos; lia|]. split; [nia|lia].
  - pose proof (Z.mod_neg_bound (end_ - start) step Hs).
    split; [|split; [lia|nia]].
    rewrite <- Z.div_opp_opp by lia. apply Z.div_pos; lia.
Qed.

(** The model of [range] against the iteration it stands for: the terms
    [start + i * step] strictly before [stop] in the direction of [step]. *)
Lemma elem_of_range (start stop step : Z) (self : CountingAI) :
  step ≠ 0 →
  ∃ l, range start stop step self = (inr l, self) ∧
       ∀ x, x ∈ l ↔
            ∃ i, 0 ≤ i ∧ x = start + i * step ∧
                 (0 < step → x < stop) ∧ (step < 0 → stop < x).
Proof.
  intros Hstep. unfold range. destruct (Z.eqb_spec step 0); [done|].
  eexists. split; [reflexivity|]. intros x.
  rewrite list_elem_of_fmap. setoid_rewrite elem_of_seqZ.
  unfold range_length.
  destruct (Z.ltb_spec 0 step) as [Hpos|Hnpos].
  - destruct (Z.ltb_spec start stop) as [Hlt|Hge].
    + pose proof (Z.div_mod (stop - start - 1) step ltac:(lia)).
      pose proof (Z.mod_pos_bound (stop - start - 1) step Hpos).
      split.
      * intros (i & -> & Hi). exists i. repeat split; try lia. nia.
      * intros (i & Hi & -> & Hup & _). exists i. split; [done|].
        specialize (Hup Hpos). nia.
    + split.
      * intros (i & _ & Hi). lia.
      * intros (i & Hi & -> & Hup & _). specialize (Hup Hpos). nia.
  - destruct (Z.ltb_spec step 0) as [Hneg|]; [|lia].
    destruct (Z.ltb_spec stop start) as [Hlt|Hge].
    + pose proof (Z.div_mod (start - stop - 1) (- step) ltac:(lia)).
      pose proof (Z.mod_pos_bound (start - stop - 1) (- step) ltac:(lia)).
      split.
      * intros (i & -> & Hi). exists i. repeat split; try lia. nia.
      * intros (i & Hi & -> & _ & Hdown). exists i. split; [done|].
        specialize (Hdown Hneg). nia.
    + split.
      * intros (i & _ & Hi). lia.
      * intros (i & Hi & -> & _ & Hdown). specialize (Hdown Hneg). nia.
Qed.

End range_facts.

(** ** The three paths of [basic_count] *)

Section basic_count_paths.

Context (self : CountingAI).

Lemma basic_count_zero_step (start end_ : Z) :
  basic_count start end_ 0 self = (inl (ValueError "Step cannot be zero"), self).
Proof. reflexivity. Qed.

Lemma basic_count_equal_bounds (x step : Z) :
  step ≠ 0 → basic_count x x step self = (inr [x], self).
Proof.
  intros Hstep. unfold basic_count.
  destruct (Z.eqb_spec step 0); [done|].
  by rewrite Z.eqb_refl.
Qed.

Lemma basic_count_mismatch (start end_ step : Z) :
  (start < end_ ∧ step < 0) ∨ (start > end_ ∧ step > 0) →
  basic_count start end_ step self = (inr [], self).
Proof.
  intros Hdir. unfold basic_count.
  destruct (Z.eqb_spec step 0); [lia|].
  destruct (Z.eqb_spec start end_); [lia|].
  destruct (Z.ltb_spec start end_), (Z.ltb_spec step 0),
    (Z.gtb_spec start end_), (Z.gtb_spec step 0); simpl; try lia; done.
Qed.

(** The counting path: the list, the cached result and the new entry. *)
Lemma basic_count_counting (start end_ step : Z) :
  (start < end_ ∧ 0 < step) ∨ (end_ < start ∧ step < 0) →
  let l := (λ i, start + i * step) <$> seqZ 0 ((end_ - start) / step + 1) in
  basic_count start end_ step self =
  (inr l,
   {| history := history self ++
        [("Basic Count",
          "from " +:+ str start +:+ " to " +:+ str end_ +:+ " by " +:+ str step,
          RList l)];
      mode := mode self; custom_items := custom_items self;
      last_result := Some (RList l) |}).
Proof.
  intros Hdir l. subst l. unfold basic_count.
  destruct (Z.eqb_spec step 0); [lia|].
  destruct (Z.eqb_spec start end_); [lia|].
  destruct (Z.ltb_spec start end_), (Z.ltb_spec step 0),
    (Z.gtb_spec start end_), (Z.gtb_spec step 0); simpl; try lia.
  - unfold range. destruct (Z.eqb_spec step 0); [lia|].
    rewrite range_length_up by lia. reflexivity.
  - unfold range. destruct (Z.eqb_spec step 0); [lia|].
    rewrite range_length_down by lia. reflexivity.
Qed.

End basic_count_paths.

(** Membership in the arithmetic sequence with last index [n]. *)
Lemma elem_of_arithmetic_sequence (start step n x : Z) :
  x ∈ ((λ i, start + i * step) <$> seqZ 0 (n + 1)) ↔
  ∃ i, 0 ≤ i ≤ n ∧ x = start + i * step.
Proof.
  rewrite list_elem_of_fmap. setoid_rewrite elem_of_seqZ.
  split; intros (i & ? & ?); exists i; split; (done || lia).
Qed.

(** ** Claims about [basic_count] *)

(** C1 (as amended).  For a non-zero step whose sign points from [start]
    towards a different [end_], [basic_count] returns the arithmetic
    sequence [start, start + step, ...] up to its last term that does not
    pass [end_]: it begins at [start], holds exactly the terms
    [start + i * step] with [i >= 0] lying between the two bounds, and
    holds [end_] itself exactly when [step] divides [end_ - start]. *)
Theorem basic_count_arithmetic_sequence (start end_ step : Z) (self : CountingAI) :
  step ≠ 0 → start ≠ end_ →
  (start < end_ ∧ 0 < step) ∨ (end_ < start ∧ step < 0) →
  ∃ l,
    fst (basic_count start end_ step self) = inr l ∧
    l = ((λ i, start + i * step) <$> seqZ 0 ((end_ - start) / step + 1)) ∧
    head l = Some start ∧
    (∀ x, x ∈ l ↔
          ∃ i, 0 ≤ i ∧ x = start + i * step ∧
               (start ≤ x ≤ end_ ∨ end_ ≤ x ≤ start)) ∧
    (end_ ∈ l ↔ (step | end_ - start)).
Proof.
  intros Hstep Hne Hdir.
  pose proof (last_index_bounds start end_ step Hdir) as (Hn & Hup & Hdown).
  set (n := (end_ - start) / step) in *.
  eexists. split; [by rewrite basic_count_counting|].
  split; [done|]. split.
  { rewrite seqZ_cons by lia. simpl. f_equal. lia. }
  split.
  - intros x. rewrite elem_of_arithmetic_sequence.
    split; intros (i & Hi & Hx).
    + exists i. destruct Hi as [Hi0 Hin], Hdir as [[? ?]|[? ?]];
        (split; [done|]); (split; [done|]); [left|right]; nia.
    + destruct Hx as [-> Hx]. exists i. split; [|done].
      destruct Hdir as [[? ?]|[? ?]]; split; try done; nia.
  - rewrite elem_of_arithmetic_sequence. split.
    + intros (i & _ & Hi). exists i. lia.
    + intros [q Hq]. exists q. split; [|lia].
      assert (q = n) as ->; [|lia].
      subst n. rewrite Hq. symmetry. apply Z.div_mul. done.
Qed.

Lemma basic_count_arithmetic_sequence_witness :
  ∃ l,
    fst (basic_count 1 10 2 init) = inr l ∧
    l = ((λ i, 1 + i * 2) <$> seqZ 0 ((10 - 1) / 2 + 1)) ∧
    head l = Some 1 ∧
    (∀ x, x ∈ l ↔
          ∃ i, 0 ≤ i ∧ x = 1 + i * 2 ∧ (1 ≤ x ≤ 10 ∨ 10 ≤ x ≤ 1)) ∧
    (10 ∈ l ↔ (2 | 10 - 1)).
Proof.
  apply (basic_count_arithmetic_sequence 1 10 2 init); [lia | lia | left; lia].
Defined.

(** C1 as the claim states it fails: counting from 1 to 10 by 2 stops at
    9, and 10 is not in the returned list. *)
Lemma basic_count_end_left_out :
  fst (basic_count 1 10 2 init) = inr [1; 3; 5; 7; 9] ∧
  ¬ (∃ l, fst (basic_count 1 10 2 init) = inr l ∧ 10 ∈ l).
Proof.
  split; [reflexivity|].
  intros (l & Hl & Hin). vm_compute in Hl. injection Hl as <-.
  repeat (apply elem_of_cons in Hin as [Hin|Hin]; [discriminate|]).
  by apply not_elem_of_nil in Hin.
Qed.

(** C2 fails on the code: with equal bounds, and with a direction
    mismatch, [basic_count] returns before it reaches the lines that set
    [last_result] and append to [history]; the instance is left as it
    was, while the counting path of the same method does log. *)
Theorem basic_count_early_return_not_logged :
  basic_count 5 5 1 init = (inr [5], init) ∧
  history (snd (basic_count 5 5 1 init)) = [] ∧
  basic_count 1 10 (-1) init = (inr [], init) ∧
  history (snd (basic_count 1 10 (-1) init)) = [] ∧
  history (snd (basic_count 1 3 1 init)) =
    [("Basic Count", "from 1 to 3 by 1", RList [1; 2; 3])].
Proof. repeat split; vm_compute; reflexivity. Qed.

(** *** [basic_count] on a machine *)

Section machine_facts.

Variable capacity : Z.

(** Off the counting path no list is built from a range: the machine
    does not matter. *)
Lemma basic_count_on_machine_early (start end_ step : Z) (self : CountingAI) :
  ¬ ((start < end_ ∧ 0 < step) ∨ (end_ < start ∧ step < 0)) →
  basic_count_on_machine capacity start end_ step self =
  basic_count start end_ step self.
Proof.
  intros Hpath. unfold basic_count_on_machine, basic_count.
  destruct (Z.eqb_spec step 0); [done|].
  destruct (Z.eqb_spec start end_); [done|].
  destruct (Z.ltb_spec start end_), (Z.ltb_spec step 0),
    (Z.gtb_spec start end_), (Z.gtb_spec step 0); simpl; try done; lia.
Qed.

(** On the counting path the length of the list decides. *)
Lemma basic_count_on_machine_counting (start end_ step : Z) (self : CountingAI) :
  (start < end_ ∧ 0 < step) ∨ (end_ < start ∧ step < 0) →
  let n := (end_ - start) / step + 1 in
  basic_count_on_machine capacity start end_ step self =
  if sys_maxsize <? n then
    (inl (OverflowError "Python int too large to convert to C ssize_t"), self)
  else if capacity <? n then (inl MemoryError, self)
  else basic_count start end_ step self.
Proof.
  intros Hdir n. subst n. rewrite (basic_count_counting self) by done.
  unfold basic_count_on_machine.
  destruct (Z.eqb_spec step 0); [lia|].
  destruct (Z.eqb_spec start end_); [lia|].
  destruct (Z.ltb_spec start end_), (Z.ltb_spec step 0),
    (Z.gtb_spec start end_), (Z.gtb_spec step 0); simpl; try lia.
  - unfold list_of_range, mbind, M_bind, bind.
    destruct (Z.eqb_spec step 0); [lia|].
    rewrite range_length_up by lia.
    by destruct (sys_maxsize <? (end_ - start) / step + 1),
      (capacity <? (end_ - start) / step + 1).
  - unfold list_of_range, mbind, M_bind, bind.
    destruct (Z.eqb_spec step 0); [lia|].
    rewrite range_length_down by lia.
    by destruct (sys_maxsize <? (end_ - start) / step + 1),
      (capacity <? (end_ - start) / step + 1).
Qed.


End machine_facts.



(** C4.  The call that fails on a zero step leaves the instance as it
    found it: the same history, the same cached result. *)
Theorem basic_count_failure_atomic (x y : Z) (self : CountingAI) :
  basic_count x y 0 self = (inl (ValueError "Step cannot be zero"), self) ∧
  history (snd (basic_count x y 0 self)) = history self ∧
  last_result (snd (basic_count x y 0 self)) = last_result self.
Proof. rewrite basic_count_zero_step. repeat split. Qed.

(** C5.  Equal bounds and a non-zero step of either sign: the result is
    the one-element list of the bound. *)
Theorem basic_count_single (x k : Z) (self : CountingAI) :
  k ≠ 0 → fst (basic_count x x k self) = inr [x].
Proof. intros Hk. by rewrite basic_count_equal_bounds. Qed.

Lemma basic_count_single_witness :
  (-3 ≠ 0) ∧ fst (basic_count 5 5 (-3) init) = inr [5].
Proof. split; [lia|]. apply (basic_count_single 5 (-3) init). lia. Defined.

(** C6.  A step that points away from [end_] gives the empty list, and
    no exception. *)
Theorem basic_count_direction_mismatch (start end_ step : Z) (self : CountingAI) :
  step ≠ 0 →
  (start < end_ ∧ step < 0) ∨ (start > end_ ∧ step > 0) →
  fst (basic_count start end_ step self) = inr [].
Proof. intros _ Hdir. by rewrite basic_count_mismatch. Qed.

Lemma basic_count_direction_mismatch_witness :
  fst (basic_count 1 10 (-1) init) = inr [].
Proof.
  apply (basic_count_direction_mismatch 1 10 (-1) init); [lia | left; lia].
Defined.

(** ** [Counter] is the frequency tally *)

Section Counter_facts.

Context `{Countable K}.
Implicit Types (items : list K) (count : gmap K Z) (x : K).

Lemma tally_cons x y items :
  tally x (y :: items) =
  if decide (y = x) then S (tally x items) else tally x items.
Proof. reflexivity. Qed.

Lemma tally_pos x items : x ∈ items ↔ (0 < tally x items)%nat.
Proof. unfold tally. rewrite list_elem_of_In. apply count_occ_In. Qed.

(** The loop of [Counter], started from any dictionary. *)
Lemma Counter_loop_lookup items count x :
  foldl (λ count x, <[x := default 0 (count !! x) + 1]> count) count items !! x =
  if decide (x ∈ items)
  then Some (default 0 (count !! x) + Z.of_nat (tally x items))
  else count !! x.
Proof.
  revert count. induction items as [|y items IH]; intros count.
  - cbn [foldl]. case_decide as Hin; [by apply not_elem_of_nil in Hin | done].
  - cbn [foldl]. rewrite IH, tally_cons. clear IH.
    destruct (decide (y = x)) as [->|Hne].
    + rewrite lookup_insert_eq. cbn [default].
      rewrite (decide_True (P := x ∈ x :: items)) by apply list_elem_of_here.
      case_decide as Hin; apply (f_equal Some); unfold id; [lia|].
      rewrite tally_pos in Hin. lia.
    + rewrite lookup_insert_ne by done.
      destruct (decide (x ∈ items)) as [Hin|Hin].
      * by rewrite decide_True by (by apply list_elem_of_further).
      * rewrite decide_False; [done|]. by intros [?|?]%elem_of_cons.
Qed.

Lemma Counter_lookup items x :
  Counter items !! x =
  if decide (x ∈ items) then Some (Z.of_nat (tally x items)) else None.
Proof.
  unfold Counter. rewrite Counter_loop_lookup, lookup_empty.
  case_decide; [|done]. apply (f_equal Some). simpl. lia.
Qed.

Lemma Counter_dom items : dom (Counter items) = list_to_set items.
Proof.
  apply set_eq. intros x.
  rewrite elem_of_dom, Counter_lookup, elem_of_list_to_set.
  case_decide; split; (done || by intros []).
Qed.

(** Tallying through a function applied to every item. *)
Lemma tally_fmap `{EqDecision L} (f : L → K) (l : list L) x :
  tally x (f <$> l) = List.length (filter (λ y, f y = x) l).
Proof.
  induction l as [|y l IH]; [done|].
  rewrite fmap_cons, tally_cons, filter_cons, IH.
  by destruct (decide (f y = x)).
Qed.

(** Tallying after some items were dropped. *)
Lemma tally_filter (P : K → Prop) `{∀ y, Decision (P y)} items x :
  tally x (filter P items) = if decide (P x) then tally x items else 0%nat.
Proof.
  induction items as [|y items IH]; [by destruct (decide (P x))|].
  rewrite filter_cons. destruct (decide (P y)) as [Hy|Hy].
  - rewrite !tally_cons, IH.
    destruct (decide (y = x)) as [->|]; [by destruct (decide (P x))|done].
  - rewrite IH, tally_cons.
    destruct (decide (y = x)) as [->|]; [by destruct (decide (P x))|done].
Qed.

End Counter_facts.

Lemma Counter_lookup_tally `{Countable K} (items : list K) (x : K) :
  Counter items !! x =
  if decide (tally x items = 0%nat) then None else Some (Z.of_nat (tally x items)).
Proof.
  rewrite Counter_lookup. pose proof (tally_pos x items) as Hpos.
  destruct (decide (x ∈ items)), (decide (tally x items = 0%nat)); try done.
  - apply Hpos in e. lia.
  - exfalso. apply n. apply Hpos. lia.
Qed.

(** ** The string built-ins *)

Lemma replace_with_empty_chars (c : ascii) (s : string) :
  list_ascii_of_string (replace_with_empty c s) =
  filter (λ d, d ≠ c) (list_ascii_of_string s).
Proof.
  induction s as [|d s IH]; [done|].
  cbn [replace_with_empty list_ascii_of_string]. rewrite filter_cons.
  destruct (decide (d = c)) as [->|Hne].
  - by rewrite decide_False by (by intros ?).
  - rewrite decide_True by done. cbn [list_ascii_of_string]. by rewrite IH.
Qed.

(** Lowercasing keeps a character inside, or outside, the class [\w]. *)
Lemma is_word_char_lower_char (c : ascii) :
  is_word_char (lower_char c) = is_word_char c.
Proof. by destruct c as [[] [] [] [] [] [] [] []]. Qed.

(** C8.  The [characters] dictionary tallies the analysed text (the
    text, lowercased unless the call is case sensitive) without its
    spaces: the space is no key, and any other character that occurs,
    punctuation too, is mapped to its number of occurrences.  ["aa bb"]
    gives [{'a': 2, 'b': 2}]. *)
Theorem count_occurrences_characters
    (text : string) (case_sensitive : bool) (self : CountingAI) :
  let analysed := if case_sensitive then text else lower text in
  (∃ r, fst (count_occurrences text case_sensitive self) = inr r ∧
        characters r = Counter (filter (λ d, d ≠ " "%char) (list_ascii_of_string analysed)) ∧
        ∀ c : ascii,
          characters r !! c =
          let n := tally c (list_ascii_of_string analysed) in
          if decide (c = " "%char) then None
          else if decide (n = 0%nat) then None else Some (Z.of_nat n)) ∧
  (∃ r, fst (count_occurrences "aa bb" true init) = inr r ∧
        characters r = {[ "a"%char := 2; "b"%char := 2 ]}) ∧
  (∃ r, fst (count_occurrences "a, b!" true init) = inr r ∧
        characters r =
        {[ "a"%char := 1; ","%char := 1; "b"%char := 1; "!"%char := 1 ]}).
Proof.
  intros analysed.
  split; [|split; eexists; (split; [done|by vm_compute])].
  eexists. split; [done|]. cbn [characters].
  assert ((if negb case_sensitive then lower text else text) = analysed) as ->
    by by destruct case_sensitive.
  rewrite replace_with_empty_chars. split; [done|].
  intros c. rewrite Counter_lookup_tally, tally_filter. cbn zeta.
  destruct (decide (c = " "%char)) as [->|Hne].
  - destruct (decide (" "%char ≠ " "%char)) as [Hn|_]; [by destruct Hn|done].
  - destruct (decide (c ≠ " "%char)) as [_|Hn]; [done|by destruct Hn].
Qed.

(** C9.  [custom_count] maps every string of the list to its number of
    exact-match occurrences, has exactly the distinct strings of the
    list as keys, and gives [{"a": 2, "b": 1}] on [["a", "b", "a"]]. *)
Theorem custom_count_tally (items : list string) (self : CountingAI) :
  (∃ r, fst (custom_count items self) = inr r ∧
        dom r = list_to_set items ∧
        (∀ x, x ∈ items → r !! x = Some (Z.of_nat (tally x items))) ∧
        (∀ x, x ∉ items → r !! x = None)) ∧
  fst (custom_count ["a"; "b"; "a"] init) = inr {[ "a" := 2; "b" := 1 ]}.
Proof.
  split; [|by vm_compute].
  eexists. split; [done|]. split; [apply Counter_dom|].
  split; intros x Hx; rewrite Counter_lookup.
  - by rewrite decide_True.
  - by rewrite decide_False.
Qed.

Lemma custom_count_tally_witness :
  ∃ r, fst (custom_count ["a"; "b"; "a"] init) = inr r ∧
       r !! "a" = Some (Z.of_nat (tally "a" ["a"; "b"; "a"])) ∧
       r !! "c" = None.
Proof.
  destruct (proj1 (custom_count_tally ["a"; "b"; "a"] init))
    as (r & Hr & _ & Hin & Hout).
  exists r. split; [exact Hr|]. split.
  - apply Hin. apply list_elem_of_here.
  - apply Hout. intros Hc.
    repeat (apply elem_of_cons in Hc as [Hc|Hc]; [discriminate|]).
    by apply not_elem_of_nil in Hc.
Defined.

(** ** Claim about [clear_history] *)

(** C10.  Whatever calls were made on a fresh instance, [clear_history]
    returns, and afterwards [get_history] returns the empty list and
    [last_result] is [None], the value [__init__] gave it. *)
Theorem clear_history_resets (cs : list call) :
  let self := run_calls init cs in
  fst (clear_history self) = inr () ∧
  fst (get_history (snd (clear_history self))) = inr [] ∧
  last_result (snd (clear_history self)) = None ∧
  last_result (snd (clear_history self)) = last_result init.
Proof. done. Qed.

(** * Further properties of the engine *)

(** ** What a call does to the instance *)

Lemma basic_count_not_counting (start end_ step : Z) (self : CountingAI) :
  logs (CallBasicCount start end_ step) = false →
  snd (basic_count start end_ step self) = self.
Proof.
  cbn [logs]. intros Hlogs.
  destruct (decide (step = 0)) as [->|Hstep]; [done|].
  destruct (decide (start = end_)) as [->|Hne].
  { by rewrite basic_count_equal_bounds. }
  rewrite basic_count_mismatch; [done|].
  destruct (Z.ltb_spec start end_), (Z.ltb_spec 0 step),
    (Z.ltb_spec end_ start), (Z.ltb_spec step 0); simpl in Hlogs; try done; lia.
Qed.

Lemma logs_basic_count (start end_ step : Z) :
  logs (CallBasicCount start end_ step) = true ↔
  (start < end_ ∧ 0 < step) ∨ (end_ < start ∧ step < 0).
Proof.
  cbn [logs].
  destruct (Z.ltb_spec start end_), (Z.ltb_spec 0 step),
    (Z.ltb_spec end_ start), (Z.ltb_spec step 0); simpl; split; (done || lia).
Qed.

(** A call leaves the instance alone, or empties it, or appends one entry
    and caches that entry's result; it never touches the other fields. *)
Lemma run_call_cases (self : CountingAI) (c : call) :
  (logs c = false ∧ is_clear c = false ∧ run_call self c = self) ∨
  (logs c = false ∧ is_clear c = true ∧
   run_call self c =
   {| history := []; mode := mode self; custom_items := custom_items self;
      last_result := None |}) ∨
  (logs c = true ∧ is_clear c = false ∧
   ∃ entry,
     run_call self c =
     {| history := history self ++ [entry]; mode := mode self;
        custom_items := custom_items self; last_result := Some entry.2 |}).
Proof.
  destruct c as [start end_ step|text cs|items| |].
  - destruct (logs (CallBasicCount start end_ step)) eqn:Hlogs.
    + right; right. split; [done|]. split; [done|].
      apply logs_basic_count in Hlogs. cbn [run_call].
      rewrite basic_count_counting by done. by eexists (_, _, _).
    + left. split; [done|]. split; [done|].
      by apply basic_count_not_counting.
  - right; right. split; [done|]. split; [done|]. by eexists (_, _, _).
  - right; right. split; [done|]. split; [done|]. by eexists (_, _, _).
  - left. by destruct self.
  - right; left. done.
Qed.

(** ** Invariants of the instance *)

(** X1.  On its counting path (distinct bounds, the step pointing from
    [start] to [end_]) [basic_count] appends exactly one entry, labelled
    ["Basic Count"], described by the three arguments and holding the
    returned list, and caches that list in [last_result]. *)
Theorem basic_count_counting_logged (start end_ step : Z) (self : CountingAI) :
  (start < end_ ∧ 0 < step) ∨ (end_ < start ∧ step < 0) →
  ∃ l, fst (basic_count start end_ step self) = inr l ∧
       history (snd (basic_count start end_ step self)) =
         history self ++
         [("Basic Count",
           "from " +:+ str start +:+ " to " +:+ str end_ +:+ " by " +:+ str step,
           RList l)] ∧
       last_result (snd (basic_count start end_ step self)) = Some (RList l).
Proof. intros Hdir. eexists. by rewrite basic_count_counting. Qed.

Lemma basic_count_counting_logged_witness :
  ∃ l, fst (basic_count 10 1 (-3) init) = inr l ∧
       history (snd (basic_count 10 1 (-3) init)) =
         history init ++
         [("Basic Count",
           "from " +:+ str 10 +:+ " to " +:+ str 1 +:+ " by " +:+ str (-3),
           RList l)] ∧
       last_result (snd (basic_count 10 1 (-3) init)) = Some (RList l).
Proof. apply (basic_count_counting_logged 10 1 (-3) init). right. lia. Defined.

(** X2.  Whatever calls were made on a fresh instance, [last_result] is
    the result stored in the newest history entry, and is [None] exactly
    when the history is empty. *)
Theorem last_result_is_newest_entry (cs : list call) :
  let self := run_calls init cs in
  last_result self = (λ entry, entry.2) <$> last (history self).
Proof.
  cbn zeta. unfold run_calls.
  assert (∀ self, last_result self = (λ entry, entry.2) <$> last (history self) →
                  last_result (foldl run_call self cs) =
                  (λ entry, entry.2) <$> last (history (foldl run_call self cs)))
    as Hinv; [|by apply Hinv].
  induction cs as [|c cs IH]; intros self Hself; [done|].
  cbn [foldl]. apply IH.
  destruct (run_call_cases self c)
    as [(_ & _ & ->)|[(_ & _ & ->)|(_ & _ & entry & ->)]]; [done|done|].
  cbn [last_result history]. by rewrite last_snoc.
Qed.

(** X3.  No method writes [mode] or [custom_items]; so after any calls on
    a fresh instance, [clear_history] brings back exactly the instance
    that [__init__] built. *)
Theorem clear_history_restores_init (cs : list call) :
  mode (run_calls init cs) = mode init ∧
  custom_items (run_calls init cs) = custom_items init ∧
  snd (clear_history (run_calls init cs)) = init.
Proof.
  assert (∀ self, mode (run_calls self cs) = mode self ∧
                  custom_items (run_calls self cs) = custom_items self) as Hinv.
  { unfold run_calls. induction cs as [|c cs IH]; intros self; [done|].
    cbn [foldl]. destruct (IH (run_call self c)) as [-> ->].
    by destruct (run_call_cases self c)
      as [(_ & _ & ->)|[(_ & _ & ->)|(_ & _ & entry & ->)]]. }
  destruct (Hinv init) as [Hmode Hitems]. split; [done|]. split; [done|].
  change (snd (clear_history (run_calls init cs)))
    with {| history := []; mode := mode (run_calls init cs);
            custom_items := custom_items (run_calls init cs);
            last_result := None |}.
  by rewrite Hmode, Hitems.
Qed.

Lemma run_calls_history_grows (self : CountingAI) (cs : list call) :
  forallb (λ c, negb (is_clear c)) cs = true →
  ∃ new, history (run_calls self cs) = history self ++ new ∧
         List.length new = List.length (filter (λ c, logs c = true) cs).
Proof.
  unfold run_calls. revert self.
  induction cs as [|c cs IH]; intros self Hcs.
  { exists []. by rewrite app_nil_r. }
  cbn [forallb] in Hcs. apply andb_prop in Hcs as [Hc Hcs].
  cbn [foldl]. destruct (IH (run_call self c) Hcs) as (new & -> & Hlen).
  rewrite filter_cons.
  destruct (run_call_cases self c)
    as [(Hl & _ & ->)|[(_ & Hclear & _)|(Hl & _ & entry & ->)]].
  - exists new. rewrite decide_False by (by rewrite Hl). done.
  - by rewrite Hclear in Hc.
  - exists (entry :: new). cbn [history]. rewrite <- app_assoc.
    split; [done|]. rewrite decide_True by done. cbn. by rewrite Hlen.
Qed.

(** X4.  Without a call of [clear_history] the history only grows at its
    end: the entries present before are kept in place, and one entry is
    added for each tally and each [basic_count] on its counting path. *)
Theorem history_append_only (self : CountingAI) (cs : list call) :
  forallb (λ c, negb (is_clear c)) cs = true →
  ∃ new, history (run_calls self cs) = history self ++ new ∧
         List.length new = List.length (filter (λ c, logs c = true) cs).
Proof. apply run_calls_history_grows. Qed.

Lemma history_append_only_witness :
  ∃ new,
    history (run_calls init
               [CallBasicCount 1 3 1; CallBasicCount 5 5 1; CallCustomCount ["a"]]) =
    history init ++ new ∧
    List.length new = 2%nat.
Proof.
  apply (history_append_only init
           [CallBasicCount 1 3 1; CallBasicCount 5 5 1; CallCustomCount ["a"]]).
  reflexivity.
Defined.

(** ** The list returned by [basic_count] *)

Lemma arithmetic_sequence_lookup (start step n : Z) (i : nat) (x : Z) :
  ((λ k, start + k * step) <$> seqZ 0 (n + 1)) !! i = Some x ↔
  x = start + Z.of_nat i * step ∧ Z.of_nat i ≤ n.
Proof.
  rewrite list_lookup_fmap, fmap_Some. setoid_rewrite lookup_seqZ.
  split.
  - intros (k & [-> Hk] & ->). split; [done|lia].
  - intros [-> Hi]. exists (Z.of_nat i). split; [split; lia|done].
Qed.

(** X5.  On the counting path the returned list has
    [(end_ - start) / step + 1] elements, is strictly increasing for a
    positive step and strictly decreasing for a negative one, and its last
    element is less than one step short of [end_]. *)
Theorem basic_count_ordered (start end_ step : Z) (self : CountingAI) :
  (start < end_ ∧ 0 < step) ∨ (end_ < start ∧ step < 0) →
  ∃ l, fst (basic_count start end_ step self) = inr l ∧
       Z.of_nat (List.length l) = (end_ - start) / step + 1 ∧
       (∀ (i j : nat) x y,
           (i < j)%nat → l !! i = Some x → l !! j = Some y →
           (0 < step → x < y) ∧ (step < 0 → y < x)) ∧
       (∃ z, last l = Some z ∧
             (0 < step → end_ - step < z ≤ end_) ∧
             (step < 0 → end_ ≤ z < end_ - step)).
Proof.
  intros Hdir.
  pose proof (last_index_bounds start end_ step Hdir) as (Hn & Hup & Hdown).
  set (n := (end_ - start) / step) in *.
  eexists. split; [by rewrite basic_count_counting|].
  split; [|split].
  - rewrite length_fmap, length_seqZ. lia.
  - intros i j x y Hij [-> Hi]%arithmetic_sequence_lookup
      [-> Hj]%arithmetic_sequence_lookup.
    split; intros; nia.
  - exists (start + n * step). split; [|split; intros Hs; [specialize (Hup Hs)|specialize (Hdown Hs)]; lia].
    rewrite last_lookup, length_fmap, length_seqZ. fold n.
    replace (pred (Z.to_nat (n + 1))) with (Z.to_nat n) by lia.
    apply arithmetic_sequence_lookup. rewrite Z2Nat.id by done. done.
Qed.

Lemma basic_count_ordered_witness :
  ∃ l, fst (basic_count 1 10 2 init) = inr l ∧
       Z.of_nat (List.length l) = (10 - 1) / 2 + 1 ∧
       (∀ (i j : nat) x y,
           (i < j)%nat → l !! i = Some x → l !! j = Some y →
           (0 < 2 → x < y) ∧ (2 < 0 → y < x)) ∧
       (∃ z, last l = Some z ∧
             (0 < 2 → 10 - 2 < z ≤ 10) ∧
             (2 < 0 → 10 ≤ z < 10 - 2)).
Proof. apply (basic_count_ordered 1 10 2 init). left. lia. Defined.

(** X6.  When the step divides the distance between the bounds, counting
    back from [end_] to [start] with the opposite step returns the same
    numbers in reverse order. *)
Theorem basic_count_reverse (start end_ step : Z) (self self' : CountingAI) :
  (start < end_ ∧ 0 < step) ∨ (end_ < start ∧ step < 0) →
  (step | end_ - start) →
  ∃ l, fst (basic_count start end_ step self) = inr l ∧
       fst (basic_count end_ start (- step) self') = inr (reverse l).
Proof.
  intros Hdir [q Hq].
  assert ((end_ - start) / step = q) as Hn.
  { rewrite Hq. apply Z.div_mul. lia. }
  assert ((start - end_) / - step = q) as Hn'.
  { replace (start - end_) with (q * - step) by lia. apply Z.div_mul. lia. }
  assert (0 ≤ q) as Hq0.
  { rewrite <- Hn. by apply last_index_bounds. }
  eexists. split; [by rewrite basic_count_counting|].
  rewrite basic_count_counting by lia. cbn [fst]. f_equal.
  rewrite Hn, Hn'. apply list_eq. intros i.
  destruct (decide (Z.of_nat i ≤ q)) as [Hi|Hi].
  - rewrite reverse_lookup by (rewrite length_fmap, length_seqZ; lia).
    rewrite length_fmap, length_seqZ.
    transitivity (Some (end_ + Z.of_nat i * - step)).
    + apply arithmetic_sequence_lookup. done.
    + symmetry. apply arithmetic_sequence_lookup.
      replace (Z.of_nat (Z.to_nat (q + 1) - S i)) with (q - Z.of_nat i) by lia.
      split; lia.
  - rewrite !lookup_ge_None_2; [done| |];
      rewrite ?length_reverse, length_fmap, length_seqZ; lia.
Qed.

Lemma basic_count_reverse_witness :
  ∃ l, fst (basic_count 2 11 3 init) = inr l ∧
       fst (basic_count 11 2 (- 3) init) = inr (reverse l).
Proof.
  apply (basic_count_reverse 2 11 3 init init); [left; lia|].
  exists 3. reflexivity.
Defined.

(** ** The algebra of [Counter] *)

Section Counter_algebra.

Context `{Countable K}.
Implicit Types (items : list K) (count : gmap K Z) (x : K).

Lemma Counter_snoc items x :
  Counter (items ++ [x]) =
  <[x := default 0 (Counter items !! x) + 1]> (Counter items).
Proof. unfold Counter. by rewrite foldl_app. Qed.

Lemma total_insert count x (v : Z) :
  total (<[x := v]> count) = v + total count - default 0 (count !! x).
Proof.
  unfold total. destruct (count !! x) as [w|] eqn:Hx; cbn [default from_option].
  - rewrite <- insert_delete_eq.
    rewrite map_fold_insert_L; [|intros; lia|apply lookup_delete_eq].
    rewrite (map_fold_delete_L _ _ x w count); [unfold id; lia|intros; lia|done].
  - rewrite map_fold_insert_L; [lia|intros; lia|done].
Qed.

Lemma Counter_total items : total (Counter items) = Z.of_nat (List.length items).
Proof.
  induction items as [|x items IH] using rev_ind; [done|].
  rewrite Counter_snoc, total_insert, IH, length_app. cbn. lia.
Qed.

Lemma Counter_positive items x (v : Z) : Counter items !! x = Some v → 1 ≤ v.
Proof.
  rewrite Counter_lookup. case_decide as Hin; [|done].
  intros [= <-]. apply tally_pos in Hin. lia.
Qed.

Lemma Counter_size items : (size (Counter items) ≤ List.length items)%nat.
Proof.
  induction items as [|x items IH] using rev_ind.
  - unfold Counter. cbn. by rewrite map_size_empty.
  - rewrite Counter_snoc, map_size_insert, length_app. cbn.
    destruct (Counter items !! x); unfold id; lia.
Qed.

Lemma Counter_empty items : Counter items = ∅ ↔ items = [].
Proof.
  split; [|by intros ->].
  destruct items as [|x items]; [done|]. intros Hempty.
  pose proof (Counter_lookup (x :: items) x) as Hx.
  rewrite Hempty, lookup_empty, decide_True in Hx by apply list_elem_of_here.
  done.
Qed.

Lemma tally_not_in x items : x ∉ items → tally x items = 0%nat.
Proof. rewrite tally_pos. lia. Qed.

Lemma Counter_eq_Permutation items1 items2 :
  Counter items1 = Counter items2 ↔ items1 ≡ₚ items2.
Proof.
  rewrite (Permutation_count_occ (decide_rel (=))). split.
  - intros Heq x. pose proof (Counter_lookup items1 x) as H1.
    rewrite Heq, Counter_lookup in H1. fold (tally x items1) (tally x items2).
    destruct (decide (x ∈ items1)) as [Hin1|Hin1],
      (decide (x ∈ items2)) as [Hin2|Hin2]; try done.
    + injection H1. lia.
    + by rewrite !tally_not_in.
  - intros Hocc. apply map_eq. intros x. rewrite !Counter_lookup.
    specialize (Hocc x). fold (tally x items1) (tally x items2) in Hocc.
    pose proof (tally_pos x items1) as Hp1.
    pose proof (tally_pos x items2) as Hp2.
    rewrite Hocc in Hp1 |- *.
    destruct (decide (x ∈ items1)) as [Hin1|Hin1],
      (decide (x ∈ items2)) as [Hin2|Hin2]; try done; exfalso.
    + by apply Hin2, Hp2, Hp1.
    + by apply Hin1, Hp1, Hp2.
Qed.

Lemma tally_app x items1 items2 :
  tally x (items1 ++ items2) = (tally x items1 + tally x items2)%nat.
Proof. apply count_occ_app. Qed.

Lemma Counter_app items1 items2 :
  Counter (items1 ++ items2) =
  union_with (λ a b, Some (a + b)) (Counter items1) (Counter items2).
Proof.
  apply map_eq. intros x.
  rewrite lookup_union_with, !Counter_lookup, tally_app.
  destruct (decide (x ∈ items1)) as [Hin1|Hin1],
    (decide (x ∈ items2)) as [Hin2|Hin2];
    rewrite ?(tally_not_in x items1), ?(tally_not_in x items2) by done.
  - rewrite decide_True by (apply elem_of_app; by left).
    cbn. apply (f_equal Some). lia.
  - rewrite decide_True by (apply elem_of_app; by left).
    cbn. apply (f_equal Some). lia.
  - rewrite decide_True by (apply elem_of_app; by right).
    cbn. apply (f_equal Some). lia.
  - rewrite decide_False; [done|]. by intros [?|?]%elem_of_app.
Qed.

End Counter_algebra.

(** ** Further properties of [custom_count] *)

(** X7.  In the dictionary of [custom_count] every count is at least 1,
    the counts add up to the number of items, there are no more keys than
    items, and the dictionary is empty only for the empty list. *)
Theorem custom_count_totals (items : list string) (self : CountingAI) :
  ∃ r, fst (custom_count items self) = inr r ∧
       (∀ k v, r !! k = Some v → 1 ≤ v) ∧
       total r = Z.of_nat (List.length items) ∧
       (size r ≤ List.length items)%nat ∧
       (r = ∅ ↔ items = []).
Proof.
  eexists. split; [done|]. split; [apply Counter_positive|].
  split; [apply Counter_total|]. split; [apply Counter_size|apply Counter_empty].
Qed.

(** X8.  [custom_count] returns the same dictionary for two lists exactly
    when one is a rearrangement of the other: the order of the items does
    not matter, and nothing but the order is forgotten. *)
Theorem custom_count_order (items1 items2 : list string) (self1 self2 : CountingAI) :
  fst (custom_count items1 self1) = fst (custom_count items2 self2) ↔
  items1 ≡ₚ items2.
Proof.
  rewrite <- Counter_eq_Permutation.
  change (@inr exn _ (Counter items1) = inr (Counter items2) ↔
          Counter items1 = Counter items2).
  split; [by intros [= ?]|by intros ->].
Qed.

Lemma custom_count_order_witness :
  fst (custom_count ["a"; "b"; "a"] init) = fst (custom_count ["b"; "a"; "a"] init).
Proof.
  apply (custom_count_order ["a"; "b"; "a"] ["b"; "a"; "a"] init init).
  apply perm_trans with ["b"; "a"; "a"]; [apply perm_swap|done].
Defined.

(** X9.  Counting a concatenation adds the counts of the two parts, key
    by key. *)
Theorem custom_count_app (items1 items2 : list string) (self : CountingAI) :
  ∃ r1 r2 r,
    fst (custom_count items1 self) = inr r1 ∧
    fst (custom_count items2 self) = inr r2 ∧
    fst (custom_count (items1 ++ items2) self) = inr r ∧
    r = union_with (λ a b, Some (a + b)) r1 r2 ∧
    ∀ k, default 0 (r !! k) = default 0 (r1 !! k) + default 0 (r2 !! k).
Proof.
  do 3 eexists. split; [done|]. split; [done|]. split; [done|].
  split; [apply Counter_app|]. intros k.
  rewrite Counter_app, lookup_union_with.
  by destruct (Counter items1 !! k), (Counter items2 !! k); cbn; lia.
Qed.

(** ** Further properties of [count_occurrences] *)

Lemma Counter_lookup_elem_of `{Countable K} (items : list K) (x : K) (v : Z) :
  Counter items !! x = Some v → x ∈ items.
Proof. rewrite Counter_lookup. by case_decide. Qed.

Lemma list_ascii_of_string_app (s t : string) :
  list_ascii_of_string (s +:+ t) = list_ascii_of_string s ++ list_ascii_of_string t.
Proof.
  induction s as [|c s IH]; [done|].
  change (c :: list_ascii_of_string (s +:+ t) =
          c :: list_ascii_of_string s ++ list_ascii_of_string t).
  by rewrite IH.
Qed.

Lemma list_ascii_of_string_lower (s : string) :
  list_ascii_of_string (lower s) = lower_char <$> list_ascii_of_string s.
Proof. induction s as [|c s IH]; [done|]. cbn. by rewrite IH. Qed.

Lemma length_list_ascii_of_string (s : string) :
  List.length (list_ascii_of_string s) = String.length s.
Proof. induction s as [|c s IH]; [done|]. cbn. by rewrite IH. Qed.

Lemma length_without (c : ascii) (l : list ascii) :
  (List.length (filter (λ d, d ≠ c) l) + tally c l = List.length l)%nat.
Proof.
  induction l as [|d l IH]; [done|].
  rewrite filter_cons, tally_cons.
  destruct (decide (d = c)) as [->|Hne].
  - rewrite decide_False by (intros Hn; by apply Hn). cbn. lia.
  - rewrite decide_True by done. cbn. lia.
Qed.

(** The runs found are not empty and hold word characters only. *)
Lemma findall_words_from_wellformed (cur s w : string) :
  Forall (λ c, is_word_char c = true) (list_ascii_of_string cur) →
  w ∈ findall_words_from cur s →
  w ≠ "" ∧ Forall (λ c, is_word_char c = true) (list_ascii_of_string w).
Proof.
  revert cur. induction s as [|c s IH]; intros cur Hcur; cbn [findall_words_from].
  - destruct (decide (cur = "")); [by intros ?%not_elem_of_nil|].
    by intros ->%list_elem_of_singleton.
  - destruct (is_word_char c) eqn:Hc.
    + apply IH. rewrite list_ascii_of_string_app. apply Forall_app.
      split; [done|]. by repeat constructor.
    + intros [Hw|Hw]%elem_of_app; [|by apply (IH "")].
      destruct (decide (cur = "")); [by apply not_elem_of_nil in Hw|].
      by apply list_elem_of_singleton in Hw as ->.
Qed.

(** A character that is no word character separates the words on its
    two sides. *)
Lemma findall_words_from_separator (cur a b : string) (c : ascii) :
  is_word_char c = false →
  findall_words_from cur (a +:+ String c b) =
  findall_words_from cur a ++ findall_words b.
Proof.
  intros Hc. revert cur. induction a as [|d a IH]; intros cur.
  - change (findall_words_from cur (String c b) =
            findall_words_from cur "" ++ findall_words b).
    cbn [findall_words_from]. by rewrite Hc.
  - change (findall_words_from cur (String d (a +:+ String c b)) =
            findall_words_from cur (String d a) ++ findall_words b).
    cbn [findall_words_from]. destruct (is_word_char d); [apply IH|].
    by rewrite IH, app_assoc.
Qed.

(** X10.  Every key of the [words] dictionary is a non-empty string of
    word characters (no space, no punctuation), every count is at least
    1, and the counts add up to the number of words found in the
    analysed text: the text itself, or its lowercase form when the call
    is not case sensitive. *)
Theorem count_occurrences_words_keys
    (text : string) (case_sensitive : bool) (self : CountingAI) :
  let analysed := if case_sensitive then text else lower text in
  ∃ r, fst (count_occurrences text case_sensitive self) = inr r ∧
       (∀ k v, words r !! k = Some v →
               k ≠ "" ∧
               Forall (λ c, is_word_char c = true) (list_ascii_of_string k) ∧
               1 ≤ v) ∧
       total (words r) = Z.of_nat (List.length (findall_words analysed)).
Proof.
  intros analysed. eexists. split; [done|]. cbn [words]. split.
  - intros k v Hk. pose proof (Counter_positive _ _ _ Hk) as Hv.
    apply Counter_lookup_elem_of in Hk.
    apply findall_words_from_wellformed in Hk as [? ?]; [done|constructor].
  - rewrite Counter_total. by destruct case_sensitive.
Qed.

(** X11.  The space is never a key of the [characters] dictionary, every
    count is at least 1, and the counts add up to the length of the
    analysed text (the text itself, or its lowercase form when the call
    is not case sensitive) less its spaces. *)
Theorem count_occurrences_characters_total
    (text : string) (case_sensitive : bool) (self : CountingAI) :
  let analysed := if case_sensitive then text else lower text in
  ∃ r, fst (count_occurrences text case_sensitive self) = inr r ∧
       (∀ c v, characters r !! c = Some v → c ≠ " "%char ∧ 1 ≤ v) ∧
       total (characters r) +
         Z.of_nat (tally " "%char (list_ascii_of_string analysed)) =
       Z.of_nat (String.length analysed).
Proof.
  intros analysed. eexists. split; [done|]. cbn [characters].
  assert ((if negb case_sensitive then lower text else text) = analysed) as ->
    by by destruct case_sensitive.
  rewrite replace_with_empty_chars. split.
  - intros c v Hc. pose proof (Counter_positive _ _ _ Hc) as Hv.
    apply Counter_lookup_elem_of, list_elem_of_filter in Hc as [? _]. done.
  - rewrite Counter_total, <- length_list_ascii_of_string.
    pose proof (length_without " " (list_ascii_of_string analysed)). lia.
Qed.

(** X13.  In the case-sensitive analysis, two texts joined by a character
    that is no word character (a space, a comma, ...) have the word
    counts of the two texts added up, key by key. *)
Theorem count_occurrences_words_additive
    (a b : string) (c : ascii) (self : CountingAI) :
  is_word_char c = false →
  ∃ ra rb r,
    fst (count_occurrences a true self) = inr ra ∧
    fst (count_occurrences b true self) = inr rb ∧
    fst (count_occurrences (a +:+ String c b) true self) = inr r ∧
    ∀ k, default 0 (words r !! k) =
         default 0 (words ra !! k) + default 0 (words rb !! k).
Proof.
  intros Hc. do 3 eexists. split; [done|]. split; [done|]. split; [done|].
  intros k. cbn [words negb]. unfold findall_words at 1.
  rewrite findall_words_from_separator by done.
  fold (findall_words a). rewrite Counter_app, lookup_union_with.
  by destruct (Counter _ !! k), (Counter _ !! k); cbn; lia.
Qed.

Lemma count_occurrences_words_additive_witness :
  ∃ ra rb r,
    fst (count_occurrences "Hi there" true init) = inr ra ∧
    fst (count_occurrences "Hi" true init) = inr rb ∧
    fst (count_occurrences ("Hi there" +:+ String "," "Hi") true init) = inr r ∧
    ∀ k, default 0 (words r !! k) =
         default 0 (words ra !! k) + default 0 (words rb !! k).
Proof.
  apply (count_occurrences_words_additive "Hi there" "Hi" "," init).
  reflexivity.
Defined.

(** * Properties of the input handling *)

(** ** [strip] and [split] *)

Lemma lstrip_starts_clean (s : string) : starts_clean (lstrip s).
Proof.
  induction s as [|c s IH]; [done|]. cbn [lstrip].
  by destruct (is_space c) eqn:Hc.
Qed.

Lemma lstrip_clean (s : string) : starts_clean s → lstrip s = s.
Proof. destruct s as [|c s]; [done|]. cbn. by intros ->. Qed.

Lemma rstrip_starts_clean (s : string) : starts_clean s → starts_clean (rstrip s).
Proof.
  destruct s as [|c s]; [done|]. cbn [starts_clean rstrip]. intros Hc.
  destruct (rstrip s); [by rewrite Hc|done].
Qed.

Lemma rstrip_idemp (s : string) : rstrip (rstrip s) = rstrip s.
Proof.
  induction s as [|c s IH]; [done|]. cbn [rstrip].
  destruct (rstrip s) as [|d r] eqn:Hr.
  - destruct (is_space c) eqn:Hc; [done|]. cbn. by rewrite Hc.
  - cbn [rstrip]. cbn [rstrip] in IH. by rewrite IH.
Qed.

Lemma strip_idemp (s : string) : strip (strip s) = strip s.
Proof.
  unfold strip. rewrite (lstrip_clean (rstrip (lstrip s))).
  - apply rstrip_idemp.
  - apply rstrip_starts_clean, lstrip_starts_clean.
Qed.

Lemma lstrip_chars (s : string) (x : ascii) :
  x ∈ list_ascii_of_string (lstrip s) → x ∈ list_ascii_of_string s.
Proof.
  induction s as [|c s IH]; [done|]. cbn [lstrip].
  destruct (is_space c); [|done]. intros Hx%IH. by apply list_elem_of_further.
Qed.

Lemma rstrip_chars (s : string) (x : ascii) :
  x ∈ list_ascii_of_string (rstrip s) → x ∈ list_ascii_of_string s.
Proof.
  induction s as [|c s IH]; [done|]. cbn [rstrip].
  destruct (rstrip s) as [|d r].
  - destruct (is_space c); [by intros ?%not_elem_of_nil|].
    intros ->%list_elem_of_singleton. apply list_elem_of_here.
  - cbn [list_ascii_of_string] in *. intros [->|Hx]%elem_of_cons.
    + apply list_elem_of_here.
    + by apply list_elem_of_further, IH.
Qed.

Lemma strip_chars (s : string) (x : ascii) :
  x ∈ list_ascii_of_string (strip s) → x ∈ list_ascii_of_string s.
Proof. intros Hx. by apply lstrip_chars, rstrip_chars. Qed.

(** The ends of a stripped string are no whitespace. *)
Lemma strip_starts_clean (s : string) : starts_clean (strip s).
Proof. apply rstrip_starts_clean, lstrip_starts_clean. Qed.

Lemma rstrip_last (s : string) (c : ascii) :
  last (list_ascii_of_string (rstrip s)) = Some c → is_space c = false.
Proof.
  induction s as [|d s IH]; [done|]. cbn [rstrip].
  destruct (rstrip s) as [|e r].
  - destruct (is_space d) eqn:Hd; [done|]. by intros [= <-].
  - cbn [list_ascii_of_string] in *. rewrite last_cons.
    destruct (last (e :: list_ascii_of_string r)) eqn:Hl;
      [|by apply last_None in Hl].
    intros [= <-]. by apply IH.
Qed.

Lemma split_from_no_separator (sep : ascii) (cur s piece : string) :
  sep ∉ list_ascii_of_string cur →
  piece ∈ split_from sep cur s →
  sep ∉ list_ascii_of_string piece.
Proof.
  revert cur. induction s as [|c s IH]; intros cur Hcur; cbn [split_from].
  - by intros ->%list_elem_of_singleton.
  - destruct (decide (c = sep)) as [->|Hne].
    + intros [->|Hp]%elem_of_cons; [done|].
      apply (IH ""); [apply not_elem_of_nil|done].
    + apply IH. rewrite list_ascii_of_string_app.
      intros [?|Hc%list_elem_of_singleton]%elem_of_app; [done|].
      by apply Hne.
Qed.

Lemma append_assoc (s t u : string) : (s +:+ t) +:+ u = s +:+ (t +:+ u).
Proof.
  induction s as [|c s IH]; [done|].
  change (String c ((s +:+ t) +:+ u) = String c (s +:+ (t +:+ u))).
  by rewrite IH.
Qed.

Lemma append_empty_r (s : string) : s +:+ "" = s.
Proof.
  induction s as [|c s IH]; [done|].
  change (String c (s +:+ "") = String c s). by rewrite IH.
Qed.

Lemma split_from_app (sep : ascii) (cur x t : string) :
  sep ∉ list_ascii_of_string x →
  split_from sep cur (x +:+ t) = split_from sep (cur +:+ x) t.
Proof.
  revert cur. induction x as [|d x IH]; intros cur Hx.
  - by rewrite append_empty_r.
  - change (split_from sep cur (String d (x +:+ t)) =
            split_from sep (cur +:+ String d x) t).
    cbn [split_from]. cbn [list_ascii_of_string] in Hx.
    rewrite decide_False by (intros ->; apply Hx, list_elem_of_here).
    rewrite IH by (intros ?; by apply Hx, list_elem_of_further).
    by rewrite append_assoc.
Qed.

(** [split] undoes [join] on pieces that hold no separator. *)
Lemma split_from_join (sep : ascii) (cur x : string) (rest : list string) :
  Forall (λ p, sep ∉ list_ascii_of_string p) (x :: rest) →
  split_from sep cur (join sep (x :: rest)) = (cur +:+ x) :: rest.
Proof.
  revert cur x. induction rest as [|y rest IH]; intros cur x Hall.
  - cbn [join]. rewrite <- (append_empty_r x) at 1.
    rewrite split_from_app by by inversion Hall. done.
  - change (join sep (x :: y :: rest))
      with (x +:+ String sep (join sep (y :: rest))).
    inversion Hall as [|? ? Hx Hrest]; subst.
    rewrite split_from_app by done. cbn [split_from].
    rewrite decide_True by done. by rewrite IH.
Qed.

(** ** The items read from the entry *)

(** X14.  Every item that [perform_count] reads from the comma-separated
    entry is non-empty, holds no comma, begins and ends with a character
    that is no whitespace, and is left as it is by a further [strip]. *)
Theorem entry_items_wellformed (items_str item : string) :
  item ∈ entry_items items_str →
  item ≠ "" ∧
  (","%char ∉ list_ascii_of_string item) ∧
  starts_clean item ∧
  (∀ c, last (list_ascii_of_string item) = Some c → is_space c = false) ∧
  strip item = item.
Proof.
  unfold entry_items. intros (piece & -> & Hpiece)%list_elem_of_fmap.
  apply list_elem_of_filter in Hpiece as [Hne Hpiece].
  split; [done|]. split; [|split; [|split]].
  - intros Hin%strip_chars. revert Hin.
    apply (split_from_no_separator "," "" items_str); [apply not_elem_of_nil|done].
  - apply strip_starts_clean.
  - apply rstrip_last.
  - apply strip_idemp.
Qed.

Lemma entry_items_wellformed_witness :
  "b c" ≠ "" ∧
  (","%char ∉ list_ascii_of_string "b c") ∧
  starts_clean "b c" ∧
  (∀ c, last (list_ascii_of_string "b c") = Some c → is_space c = false) ∧
  strip "b c" = "b c".
Proof.
  apply (entry_items_wellformed " a ,, b c ,"). vm_compute.
  apply list_elem_of_further, list_elem_of_here.
Defined.

(** X15.  Typing pieces separated by commas gives back the pieces,
    stripped, without the blank ones; pieces that are already clean come
    back unchanged. *)
Theorem entry_items_join (pieces : list string) :
  Forall (λ p, ","%char ∉ list_ascii_of_string p) pieces →
  entry_items (join "," pieces) =
    (strip <$> filter (λ p, strip p ≠ "") pieces) ∧
  (Forall (λ p, p ≠ "" ∧ strip p = p) pieces →
   entry_items (join "," pieces) = pieces).
Proof.
  intros Hsep.
  assert (entry_items (join "," pieces) =
          strip <$> filter (λ p, strip p ≠ "") pieces) as Heq.
  { unfold entry_items, split. destruct pieces as [|x rest]; [done|].
    by rewrite split_from_join. }
  split; [done|]. intros Hclean. rewrite Heq. clear Heq Hsep.
  induction Hclean as [|p pieces [Hne Hp] _ IH]; [done|].
  rewrite filter_cons, decide_True by (by rewrite Hp).
  rewrite fmap_cons, Hp. by f_equal.
Qed.

Lemma entry_items_join_witness :
  entry_items (join "," ["tea"; " milk "; "  "; "two sugars"]) =
    (strip <$> filter (λ p, strip p ≠ "") ["tea"; " milk "; "  "; "two sugars"]) ∧
  entry_items (join "," ["tea"; "two sugars"]) = ["tea"; "two sugars"].
Proof.
  split.
  - apply (entry_items_join ["tea"; " milk "; "  "; "two sugars"]).
    repeat constructor; vm_compute; intros Hin;
      repeat (apply elem_of_cons in Hin as [Hin|Hin]; [discriminate|]);
      by apply not_elem_of_nil in Hin.
  - apply (entry_items_join ["tea"; "two sugars"]).
    + repeat constructor; vm_compute; intros Hin;
        repeat (apply elem_of_cons in Hin as [Hin|Hin]; [discriminate|]);
        by apply not_elem_of_nil in Hin.
    + repeat constructor; done.
Defined.

(** ** The window and the engine *)

Lemma basic_count_raise_or_return (start end_ step : Z) (self : CountingAI) :
  (step = 0 ∧
   basic_count start end_ step self =
   (inl (ValueError "Step cannot be zero"), self)) ∨
  (step ≠ 0 ∧
   ∃ l, basic_count start end_ step self =
        (inr l, snd (basic_count start end_ step self))).
Proof.
  destruct (decide (step = 0)) as [->|Hstep]; [by left|right].
  split; [done|].
  destruct (decide (start = end_)) as [->|Hne].
  { rewrite basic_count_equal_bounds by done. by eexists. }
  destruct (decide ((start < end_ ∧ step < 0) ∨ (start > end_ ∧ step > 0))).
  { rewrite basic_count_mismatch by done. by eexists. }
  rewrite basic_count_counting by lia. by eexists.
Qed.

Lemma update_history_app (self : CountingAI) (new : list (string * string * py_result)) :
  imap (λ i '(mode, description, _),
          str (Z.of_nat i + 1) +:+ ". " +:+ mode +:+ " - " +:+ description)
       (history self ++ new) =
  update_history self ++
  imap (λ i '(mode, description, _),
          str (Z.of_nat (List.length (history self) + i) + 1)
          +:+ ". " +:+ mode +:+ " - " +:+ description) new.
Proof. unfold update_history. by rewrite imap_app. Qed.

(** X16.  Without a call of [clear_history], the lines that
    [update_history] shows for the entries already present stay as they
    are, numbers included; the new entries are shown below them, one
    line each. *)
Theorem update_history_stable (self : CountingAI) (cs : list call) :
  forallb (λ c, negb (is_clear c)) cs = true →
  ∃ lines, update_history (run_calls self cs) = update_history self ++ lines ∧
           List.length lines = List.length (filter (λ c, logs c = true) cs).
Proof.
  intros Hcs. destruct (run_calls_history_grows self cs Hcs) as (new & Hnew & Hlen).
  unfold update_history at 1. rewrite Hnew, update_history_app.
  eexists. split; [done|]. by rewrite length_imap.
Qed.

Lemma update_history_stable_witness :
  ∃ lines,
    update_history (run_calls init [CallCustomCount ["a"]; CallBasicCount 1 3 1]) =
    update_history init ++ lines ∧
    List.length lines = 2%nat.
Proof.
  apply (update_history_stable init [CallCustomCount ["a"]; CallBasicCount 1 3 1]).
  reflexivity.
Defined.

Section window_facts.

Variable int : string → exn + Z.

(** The body of [perform_count] reaches its end, or leaves the engine as
    it found it. *)
Lemma perform_count_body_cases (g : CountingGUI) :
  fst (perform_count_body int g (ai g)) = inr Completed ∨
  snd (perform_count_body int g (ai g)) = ai g.
Proof.
  unfold perform_count_body.
  destruct (decide (mode_var g = "basic")) as [_|_].
  { unfold mbind, M_bind, bind, int_of.
    destruct (int (start_entry g)) as [e|start]; [by right|].
    destruct (int (end_entry g)) as [e|end_]; [by right|].
    destruct (int (step_entry g)) as [e|step]; [by right|].
    destruct (basic_count_raise_or_return start end_ step (ai g))
      as [[_ ->]|[_ [l ->]]]; [by right|by left]. }
  destruct (decide (mode_var g = "occurrences")) as [_|_].
  { destruct (decide (text_entry g = "")); [by right|by left]. }
  destruct (decide (mode_var g = "custom")) as [_|_]; [|by left].
  destruct (decide (custom_entry g = "")); [by right|].
  destruct (decide (entry_items (custom_entry g) = [])); [by right|by left].
Qed.

Lemma perform_count_cases (g : CountingGUI) :
  (perform_count int g =
   with_engine g (ai (perform_count int g))
     (update_history (ai (perform_count int g))) (dialogs g)) ∨
  (∃ d, perform_count int g =
        with_engine g (ai g) (history_listbox g) (dialogs g ++ [d])).
Proof.
  unfold perform_count.
  destruct (perform_count_body_cases g) as [Hdone|Hsame];
    destruct (perform_count_body int g (ai g)) as [[[msg|msg|]|[d|]] self];
    cbn [fst snd] in *; simplify_eq; eauto.
Qed.

(** X17.  After anything the user does, the history list box shows
    exactly the engine's history: one line per entry, in order. *)
Theorem listbox_in_sync (es : list event) :
  let g := gui_run int gui_init es in
  history_listbox g = update_history (ai g) ∧
  List.length (history_listbox g) = List.length (history (ai g)).
Proof.
  cbn zeta.
  assert (history_listbox (gui_run int gui_init es) =
          update_history (ai (gui_run int gui_init es))) as Hsync.
  { unfold gui_run. generalize gui_init (eq_refl : history_listbox gui_init =
                                                    update_history (ai gui_init)).
    induction es as [|e es IH]; intros g Hg; [done|].
    cbn [foldl]. apply IH. destruct e; [done| |done].
    cbn [gui_step].
    destruct (perform_count_cases g) as [->|[d ->]]; [done|by cbn]. }
  split; [done|]. rewrite Hsync. apply length_imap.
Qed.

(** X18.  Whenever [perform_count] shows a message box, it shows just
    one, and the engine and the list box are exactly as they were
    before; otherwise no box is shown and the list box is refreshed. *)
Theorem perform_count_box_or_refresh (g : CountingGUI) :
  (dialogs (perform_count int g) = dialogs g ∧
   history_listbox (perform_count int g) = update_history (ai (perform_count int g))) ∨
  (∃ d, dialogs (perform_count int g) = dialogs g ++ [d] ∧
        ai (perform_count int g) = ai g ∧
        history_listbox (perform_count int g) = history_listbox g).
Proof.
  destruct (perform_count_cases g) as [Heq|[d ->]].
  - left. by rewrite Heq.
  - right. by exists d.
Qed.

(** X19.  In basic mode with entries that read as integers, a step of 0
    shows the error box "Invalid input: Step cannot be zero" and changes
    neither the engine nor the list box. *)
Theorem perform_count_zero_step (g : CountingGUI) (start end_ : Z) :
  mode_var g = "basic" →
  int (start_entry g) = inr start →
  int (end_entry g) = inr end_ →
  int (step_entry g) = inr 0 →
  perform_count int g =
  with_engine g (ai g) (history_listbox g)
    (dialogs g ++ [showerror "Input Error" "Invalid input: Step cannot be zero"]).
Proof.
  intros Hmode Hstart Hend Hstep.
  unfold perform_count, perform_count_body.
  rewrite decide_True by done.
  unfold mbind, M_bind, bind, int_of. by rewrite Hstart, Hend, Hstep.
Qed.

(** X20.  In custom mode the engine is called exactly when the entry
    holds at least one item, and then with the items of the entry; when
    it holds none (empty, or only commas and whitespace), a warning is
    shown and the engine is not called. *)
Theorem perform_count_custom (g : CountingGUI) :
  mode_var g = "custom" →
  let items := entry_items (custom_entry g) in
  (items = [] →
   ∃ message,
     perform_count int g =
     with_engine g (ai g) (history_listbox g)
       (dialogs g ++ [showwarning "Input Error" message])) ∧
  (items ≠ [] →
   ai (perform_count int g) = snd (custom_count items (ai g)) ∧
   dialogs (perform_count int g) = dialogs g ∧
   history (ai (perform_count int g)) =
     history (ai g) ++
     [("Custom Count", str (Z.of_nat (List.length items)) +:+ " items",
       RCounts (Counter items))]).
Proof.
  intros Hmode items. subst items.
  unfold perform_count, perform_count_body. rewrite Hmode.
  rewrite (decide_False (P := "custom" = "basic")) by done.
  rewrite (decide_False (P := "custom" = "occurrences")) by done.
  rewrite (decide_True (P := "custom" = "custom")) by done.
  split.
  - intros Hnone. destruct (decide (custom_entry g = "")); [by eexists|].
    rewrite decide_True by done. by eexists.
  - intros Hsome. destruct (decide (custom_entry g = "")) as [Hempty|_].
    { by rewrite Hempty in Hsome. }
    by rewrite decide_False by done.
Qed.

End window_facts.

Lemma perform_count_zero_step_witness :
  perform_count (λ _, inr 0) gui_init =
  with_engine gui_init (ai gui_init) (history_listbox gui_init)
    (dialogs gui_init ++
     [showerror "Input Error" "Invalid input: Step cannot be zero"]).
Proof.
  apply (perform_count_zero_step (λ _, inr 0) gui_init 0 0); reflexivity.
Defined.

Lemma perform_count_custom_witness :
  let g := gui_step (λ _, inr 0) gui_init
             (UserInput "custom" "" "" "" "" false "a, b") in
  ai (perform_count (λ _, inr 0) g) = snd (custom_count ["a"; "b"] init) ∧
  dialogs (perform_count (λ _, inr 0) g) = [] ∧
  history (ai (perform_count (λ _, inr 0) g)) =
    [] ++ [("Custom Count", str (Z.of_nat 2) +:+ " items",
            RCounts (Counter ["a"; "b"]))].
Proof.
  apply (proj2 (perform_count_custom (λ _, inr 0)
                  (gui_step (λ _, inr 0) gui_init
                     (UserInput "custom" "" "" "" "" false "a, b"))
                  eq_refl)).
  discriminate.
Defined.

(** * The [words] entry beyond the 8-bit characters *)

Section unicode_facts.

Variable t : Unicode.tables.

Lemma lower_latin1_bound (c : N) : (Unicode.lower_latin1 c < 256)%N.
Proof. apply N_ascii_bounded. Qed.

(** Below 256 there is no capital sigma and no mapping to two code
    points: the lowercase of a text is that of its code points. *)
Lemma lower_from_latin1 (before s : list N) :
  Forall (λ c, (c < 256)%N) s →
  Unicode.lower_from t before s = Unicode.lower_latin1 <$> s.
Proof.
  intros Hs. revert before.
  induction Hs as [|c s Hc _ IH]; intros before; [done|].
  cbn [Unicode.lower_from]. rewrite IH. unfold Unicode.lower_full.
  rewrite (proj2 (N.eqb_neq c Unicode.CAPITAL_SIGMA))
    by (unfold Unicode.CAPITAL_SIGMA; lia).
  by rewrite (proj2 (N.ltb_lt c 256)) by done.
Qed.

Lemma is_word_lower_latin1 (c : N) :
  (c < 256)%N →
  Unicode.is_word t (Unicode.lower_latin1 c) = Unicode.is_word t c.
Proof.
  intros Hc. unfold Unicode.is_word.
  rewrite (proj2 (N.ltb_lt _ 256)) by apply lower_latin1_bound.
  rewrite (proj2 (N.ltb_lt c 256)) by done.
  unfold Unicode.lower_latin1.
  by rewrite ascii_N_embedding, is_word_char_lower_char.
Qed.

Lemma findall_words_from_lower_latin1 (cur s : list N) :
  Forall (λ c, (c < 256)%N) s →
  Unicode.findall_words_from t
    (Unicode.lower_latin1 <$> cur) (Unicode.lower_latin1 <$> s) =
  ((λ w : list N, Unicode.lower_latin1 <$> w) <$>
     Unicode.findall_words_from t cur s).
Proof.
  intros Hs. revert cur. induction Hs as [|c s Hc _ IH]; intros cur.
  - cbn [fmap list_fmap Unicode.findall_words_from]. by destruct cur.
  - rewrite fmap_cons. cbn [Unicode.findall_words_from].
    rewrite is_word_lower_latin1 by done. destruct (Unicode.is_word t c).
    + rewrite <- IH. by rewrite fmap_app.
    + rewrite fmap_app, <- (IH []). f_equal. by destruct cur.
Qed.

Lemma findall_words_lower_latin1 (s : list N) :
  Forall (λ c, (c < 256)%N) s →
  Unicode.findall_words t (Unicode.lower_latin1 <$> s) =
  ((λ w : list N, Unicode.lower_latin1 <$> w) <$> Unicode.findall_words t s).
Proof. apply (findall_words_from_lower_latin1 [] s). Qed.

Lemma findall_words_from_latin1 (cur s w : list N) :
  Forall (λ c, (c < 256)%N) cur → Forall (λ c, (c < 256)%N) s →
  w ∈ Unicode.findall_words_from t cur s → Forall (λ c, (c < 256)%N) w.
Proof.
  intros Hcur Hs. revert cur Hcur.
  induction Hs as [|c s Hc _ IH]; intros cur Hcur;
    cbn [Unicode.findall_words_from].
  - destruct (decide (cur = [])); [by intros ?%not_elem_of_nil|].
    by intros ->%list_elem_of_singleton.
  - destruct (Unicode.is_word t c).
    + apply IH. apply Forall_app. split; [done|]. by constructor.
    + intros [Hw|Hw]%elem_of_app; [|by apply (IH [])].
      destruct (decide (cur = [])); [by apply not_elem_of_nil in Hw|].
      by apply list_elem_of_singleton in Hw as ->.
Qed.

(** ** Agreement with the engine on its 8-bit texts *)

Lemma encode_latin1 (s : string) : Forall (λ c, (c < 256)%N) (Unicode.encode s).
Proof.
  unfold Unicode.encode. apply Forall_fmap, Forall_forall.
  intros c _. apply N_ascii_bounded.
Qed.

Lemma encode_inj (s1 s2 : string) : Unicode.encode s1 = Unicode.encode s2 → s1 = s2.
Proof.
  unfold Unicode.encode. intros Heq.
  rewrite <- (string_of_list_ascii_of_string s1),
    <- (string_of_list_ascii_of_string s2). f_equal.
  revert Heq. generalize (list_ascii_of_string s1) (list_ascii_of_string s2).
  intros l1. induction l1 as [|c1 l1 IH]; intros [|c2 l2]; try done.
  rewrite !fmap_cons. intros [= Hc Hl]. f_equal; [|by apply IH].
  by rewrite <- (ascii_N_embedding c1), <- (ascii_N_embedding c2), Hc.
Qed.

Lemma encode_app (s1 s2 : string) :
  Unicode.encode (s1 +:+ s2) = Unicode.encode s1 ++ Unicode.encode s2.
Proof. unfold Unicode.encode. by rewrite list_ascii_of_string_app, fmap_app. Qed.

Lemma encode_lower (s : string) :
  Unicode.lower t (Unicode.encode s) = Unicode.encode (lower s).
Proof.
  unfold Unicode.lower. rewrite lower_from_latin1 by apply encode_latin1.
  unfold Unicode.encode. rewrite list_ascii_of_string_lower, <- !list_fmap_compose.
  apply list_fmap_ext. intros _ c _. cbn. unfold Unicode.lower_latin1.
  by rewrite ascii_N_embedding.
Qed.

Lemma is_word_encode (c : ascii) :
  Unicode.is_word t (N_of_ascii c) = is_word_char c.
Proof.
  unfold Unicode.is_word.
  rewrite (proj2 (N.ltb_lt _ 256)) by apply N_ascii_bounded.
  by rewrite ascii_N_embedding.
Qed.

Lemma findall_words_from_encode (cur s : string) :
  Unicode.findall_words_from t (Unicode.encode cur) (Unicode.encode s) =
  (Unicode.encode <$> findall_words_from cur s).
Proof.
  revert cur. induction s as [|c s IH]; intros cur.
  - cbn [findall_words_from].
    change (Unicode.encode "") with (@nil N). cbn [Unicode.findall_words_from].
    destruct (decide (cur = "")) as [->|Hne]; [done|].
    rewrite decide_False; [done|]. intros Hnil. apply Hne.
    by apply encode_inj.
  - change (Unicode.encode (String c s)) with (N_of_ascii c :: Unicode.encode s).
    cbn [Unicode.findall_words_from findall_words_from].
    rewrite is_word_encode. destruct (is_word_char c).
    + rewrite <- IH. by rewrite encode_app.
    + rewrite fmap_app, <- (IH ""). f_equal.
      destruct (decide (cur = "")) as [->|Hne]; [done|].
      rewrite decide_False; [done|]. intros Hnil. apply Hne.
      by apply encode_inj.
Qed.

Lemma tally_encode (k : string) (ws : list string) :
  tally (Unicode.encode k) (Unicode.encode <$> ws) = tally k ws.
Proof.
  induction ws as [|w ws IH]; [done|].
  rewrite fmap_cons, !tally_cons, IH.
  destruct (decide (w = k)) as [->|Hne]; [by rewrite decide_True|].
  rewrite decide_False; [done|]. intros Heq. by apply Hne, encode_inj.
Qed.

(** On a text of the engine, the [words] entry modelled on code points
    is the one the engine computes. *)
Lemma words_of_text_encode
    (text : string) (case_sensitive : bool) (self : CountingAI) (k : string) :
  ∃ r, fst (count_occurrences text case_sensitive self) = inr r ∧
       Unicode.words_of_text t (Unicode.encode text) case_sensitive
         !! Unicode.encode k =
       words r !! k.
Proof.
  eexists. split; [done|]. cbn [words]. unfold Unicode.words_of_text.
  assert ((if negb case_sensitive then Unicode.lower t (Unicode.encode text)
           else Unicode.encode text) =
          Unicode.encode (if negb case_sensitive then lower text else text)) as ->.
  { destruct case_sensitive; cbn [negb]; [done|apply encode_lower]. }
  unfold Unicode.findall_words, findall_words.
  rewrite (findall_words_from_encode "").
  by rewrite !Counter_lookup_tally, tally_encode.
Qed.


(** The Greek text [ΟΣ οσ] and the text [İx], on any tables: only fixed
    entries are consulted. *)
Lemma greek_and_dotted_words :
  Unicode.words_of_text t [0x39F; 0x3A3; 32; 0x3BF; 0x3C3]%N false =
    {[ [0x3BF; 0x3C2]%N := 1; [0x3BF; 0x3C3]%N := 1 ]} ∧
  Unicode.words_of_text t [0x130; 120]%N false =
    {[ [105]%N := 1; [120]%N := 1 ]}.
Proof. by vm_compute. Qed.

End unicode_facts.


